(** * Connection pools of go-channel-patterns

    A shallow embedding of [patterns/work-pools/db/db_pool.go] (package
    [dbpool]) and of its sibling for cache connections (package
    [redispool]), followed by the properties of the resource-pool
    specification that can be settled on them.

    The embedding is sequential: one goroutine runs one method at a time
    on a pool.  A call has one of three outcomes: it returns, it panics,
    or it blocks on a channel operation that no goroutine of the model
    can complete.  Every outcome carries the pool and the world as they
    are at that point. *)

From stdpp Require Import base list.
From Stdlib Require Import ZArith Lia.

Local Open Scope Z_scope.

(** ** Time

    [time.Time] and [time.Duration] are counts of nanoseconds on one
    clock; the zero [Time] is [0].  [t.Add(d)] is addition and
    [t.Before(u)] is the strict order. *)

Definition Time := Z.
Definition Duration := Z.

Bind Scope Z_scope with Time Duration.

Definition Millisecond : Duration := 1000000.
Definition Second : Duration := 1000 * Millisecond.
Definition Minute : Duration := 60 * Second.
Definition Hour : Duration := 60 * Minute.

Definition Time_Add (t : Time) (d : Duration) : Time := t + d.
Definition Time_Before (t u : Time) : bool := t <? u.
Definition Time_IsZero (t : Time) : bool := t =? 0.

(** ** Connections

    A [*DBConn] is an address; [nil] is address [0] and the struct at
    address [S i] is the [i]-th cell of the heap.  The [*sql.DB] (or
    [*redis.Client]) inside is opaque: only its identity is kept, and
    closing it is recorded in the world. *)

Definition resource := nat.
Definition ptr := nat.
Definition nil : ptr := O.

Bind Scope nat_scope with resource ptr.

Record DBConn := mkDBConn {
  DB : resource;
  HeartBeat : Time;
  TimeOut : Duration;
}.

Definition set_HeartBeat (t : Time) (c : DBConn) : DBConn :=
  {| DB := DB c; HeartBeat := t; TimeOut := TimeOut c |}.

(** ** Channels of connections

    [make(chan *DBConn, n)]: a queue of at most [n] addresses and a
    closed flag.  With no second goroutine at hand, a send proceeds only
    into free buffer space and a receive only from a non-empty buffer or
    a closed channel. *)

Module Chan.

Record t := mk {
  buf : list ptr;
  cap : Z;
  closed : bool;
}.

(** The limits of the runtime's [makechan] on a 64-bit platform
    (linux/amd64): the heap spans [maxAlloc = 2^48] bytes, a channel
    header takes [hchanSize] bytes (104 in the current runtime; 96
    before the header got its timer field, which moves the limit below
    by one element) and an element of [chan *DBConn] is a pointer of 8
    bytes. *)
Definition maxAlloc : Z := 2 ^ 48.
Definition hchanSize : Z := 104.
Definition elemsize : Z := 8.

(** The largest capacity [make] accepts. *)
Definition max_cap : Z := (maxAlloc - hchanSize) / elemsize.

(** [make(chan *DBConn, n)]: the runtime panics ("makechan: size out of
    range") when [n] is negative or the buffer of [n] elements exceeds
    [maxAlloc - hchanSize]; [None] is that panic.  Below the limit the
    buffer is allocated; a machine that cannot provide the memory stops
    the process with a fatal error, which is outside the model. *)
Definition make (n : Z) : option t :=
  if (n <? 0) || (maxAlloc - hchanSize <? elemsize * n) then None
  else Some {| buf := []; cap := n; closed := false |}.

(** [make(chan T)]: no buffer. *)
Definition make_unbuffered : t := {| buf := []; cap := 0; closed := false |}.

Definition len (c : t) : Z := Z.of_nat (length (buf c)).

Definition set_buf (b : list ptr) (c : t) : t :=
  {| buf := b; cap := cap c; closed := closed c |}.

Inductive send_result :=
| Sent (c : t)
| SendBlocks
| SendPanics.

(** [c <- x] *)
Definition send (c : t) (x : ptr) : send_result :=
  if closed c then SendPanics
  else if len c <? cap c then Sent (set_buf (buf c ++ [x]) c)
  else SendBlocks.

Inductive recv_result :=
| Received (x : ptr) (ok : bool) (c : t)
| RecvBlocks.

(** [x, ok := <-c]: the head of the buffer; the zero value [nil] and
    [ok = false] once the channel is closed and drained. *)
Definition recv (c : t) : recv_result :=
  match buf c with
  | x :: rest => Received x true (set_buf rest c)
  | [] => if closed c then Received nil false c else RecvBlocks
  end.

(** [close(c)] panics on a closed channel. *)
Definition close (c : t) : option t :=
  if closed c then None
  else Some {| buf := buf c; cap := cap c; closed := true |}.

End Chan.

(** ** The pool and the world around it *)

(** What a call of [p.OpenConnection] hands back with a nil error: the
    address of a struct it has just allocated, given by the fields of
    that struct (as [openNewConnection] of the demo does), or an address
    it had already, which may be [nil] or that of a struct handed back
    before (an address that is not on the heap dereferences as [nil]
    does). *)
Inductive Opened :=
| Allocated (c : DBConn)
| Existing (conn : ptr).

(** [p.OpenConnection]: the result of its [k]-th call in the life of the
    process, an error ([None]) or a connection.  A factory that calls
    into the pool or writes to connections is outside the model. *)
Definition Factory := nat → option Opened.

Inductive Ticker := Running | Stopped.

Record ConnectionPool := mkPool {
  conns : Chan.t;
  maxConnections : Z;
  minConnections : Z;
  waitTimeout : Duration;
  OpenConnection : option Factory;
  cleanupTicker : option Ticker;
}.

Definition set_conns (c : Chan.t) (p : ConnectionPool) : ConnectionPool :=
  {| conns := c; maxConnections := maxConnections p;
     minConnections := minConnections p; waitTimeout := waitTimeout p;
     OpenConnection := OpenConnection p; cleanupTicker := cleanupTicker p |}.

Definition set_cleanupTicker (t : option Ticker) (p : ConnectionPool) : ConnectionPool :=
  {| conns := conns p; maxConnections := maxConnections p;
     minConnections := minConnections p; waitTimeout := waitTimeout p;
     OpenConnection := OpenConnection p; cleanupTicker := t |}.

Definition set_OpenConnection (f : option Factory) (p : ConnectionPool) : ConnectionPool :=
  {| conns := conns p; maxConnections := maxConnections p;
     minConnections := minConnections p; waitTimeout := waitTimeout p;
     OpenConnection := f; cleanupTicker := cleanupTicker p |}.

(** Everything outside one pool: the connection structs, the trace of
    [Close] calls on resources, the package-level [once] of [dbpool],
    the clock ([clock k] is what the [k]-th [time.Now()] returns) and
    the number of factory calls made so far. *)
Record World := mkWorld {
  heap : list DBConn;
  closes : list resource;
  once_done : bool;
  clock : nat → Time;
  ticks : nat;
  opens : nat;
}.

Definition set_heap (h : list DBConn) (w : World) : World :=
  {| heap := h; closes := closes w; once_done := once_done w;
     clock := clock w; ticks := ticks w; opens := opens w |}.

Definition set_closes (l : list resource) (w : World) : World :=
  {| heap := heap w; closes := l; once_done := once_done w;
     clock := clock w; ticks := ticks w; opens := opens w |}.

Definition set_once_done (b : bool) (w : World) : World :=
  {| heap := heap w; closes := closes w; once_done := b;
     clock := clock w; ticks := ticks w; opens := opens w |}.

Definition set_ticks (n : nat) (w : World) : World :=
  {| heap := heap w; closes := closes w; once_done := once_done w;
     clock := clock w; ticks := n; opens := opens w |}.

Definition set_opens (n : nat) (w : World) : World :=
  {| heap := heap w; closes := closes w; once_done := once_done w;
     clock := clock w; ticks := ticks w; opens := n |}.

(** [*conn] *)
Definition deref (w : World) (conn : ptr) : option DBConn :=
  match conn with
  | O => None
  | S i => heap w !! i
  end.

(** ** Outcomes and the monad of pool methods *)

Inductive PanicKind :=
| NilDereference
| SendOnClosedChannel
| CloseOfClosedChannel
| NilFunctionCall.

Inductive Outcome (A : Type) : Type :=
| Returns (a : A) (p : ConnectionPool) (w : World)
| Panics (k : PanicKind) (p : ConnectionPool) (w : World)
| Blocks (p : ConnectionPool) (w : World).

Arguments Returns {A} a p w.
Arguments Panics {A} k p w.
Arguments Blocks {A} p w.

Definition M (A : Type) : Type := ConnectionPool → World → Outcome A.

Definition ret {A} (a : A) : M A := λ p w, Returns a p w.

Definition bind {A B} (m : M A) (f : A → M B) : M B :=
  λ p w,
    match m p w with
    | Returns a p' w' => f a p' w'
    | Panics k p' w' => Panics k p' w'
    | Blocks p' w' => Blocks p' w'
    end.

Definition panic {A} (k : PanicKind) : M A := λ p w, Panics k p w.
Definition block {A} : M A := λ p w, Blocks p w.

Declare Scope pool_scope.
Delimit Scope pool_scope with pool.
Notation "x ← m ; f" := (bind m (λ x, f))
  (at level 20, m at level 100, f at level 200, only parsing) : pool_scope.
Notation "m ;; f" := (bind m (λ _, f))
  (at level 100, f at level 200, only parsing, right associativity) : pool_scope.
Local Open Scope pool_scope.

Definition get_pool : M ConnectionPool := λ p w, Returns p p w.
Definition put_pool (p' : ConnectionPool) : M unit := λ _ w, Returns tt p' w.
Definition get_world : M World := λ p w, Returns w p w.
Definition put_world (w' : World) : M unit := λ p _, Returns tt p w'.

(** [time.Now()] *)
Definition time_Now : M Time :=
  w ← get_world;
  put_world (set_ticks (S (ticks w)) w);;
  ret (clock w (ticks w)).

(** Reading the struct behind [conn]; a nil pointer panics. *)
Definition load (conn : ptr) : M DBConn :=
  w ← get_world;
  match deref w conn with
  | Some c => ret c
  | None => panic NilDereference
  end.

(** Writing the struct behind [conn]. *)
Definition store (conn : ptr) (c : DBConn) : M unit :=
  w ← get_world;
  match conn with
  | O => panic NilDereference
  | S i => if decide (i < length (heap w))%nat
           then put_world (set_heap (<[i := c]> (heap w)) w)
           else panic NilDereference
  end.

(** [conn.DB.Close()] *)
Definition DB_Close (r : resource) : M unit :=
  w ← get_world;
  put_world (set_closes (closes w ++ [r]) w).

(** [p.conns <- conn] *)
Definition send_conns (conn : ptr) : M unit :=
  p ← get_pool;
  match Chan.send (conns p) conn with
  | Chan.Sent c => put_pool (set_conns c p)
  | Chan.SendBlocks => block
  | Chan.SendPanics => panic SendOnClosedChannel
  end.

(** [p.OpenConnection()]: [None] is a non-nil [err]; otherwise the
    address the factory hands back, whatever it is.  A struct that the
    factory allocates is placed at the next free address. *)
Definition call_OpenConnection : M (option ptr) :=
  p ← get_pool;
  match OpenConnection p with
  | None => panic NilFunctionCall
  | Some f =>
      w ← get_world;
      put_world (set_opens (S (opens w)) w);;
      match f (opens w) with
      | None => ret None
      | Some (Allocated c) =>
          w' ← get_world;
          put_world (set_heap (heap w' ++ [c]) w');;
          ret (Some (S (length (heap w'))))
      | Some (Existing conn) => ret (Some conn)
      end
  end.

(** ** [package dbpool] *)

(** [New]: [None] is the panic of [make] on a capacity that is negative
    or beyond [Chan.max_cap].  The arguments are an [int] and a
    [time.Duration] of 64 bits in the source; here they range over all
    of [Z], and the capacity is the one that [make] constrains. *)
Definition New (maxConnections minConnections : Z) (waitTimeout : Duration)
  : option ConnectionPool :=
  match Chan.make maxConnections with
  | None => None
  | Some c =>
      Some {| conns := c;
              maxConnections := maxConnections;
              minConnections := minConnections;
              waitTimeout := waitTimeout;
              OpenConnection := None;
              cleanupTicker := None |}
  end.

(** The comparison inside [isConnectionExpired] and
    [CloseExpiredConnections]:
    [conn.HeartBeat.Add(conn.TimeOut).Before(now)]. *)
Definition expired_at (c : DBConn) (now : Time) : bool :=
  Time_Before (Time_Add (HeartBeat c) (TimeOut c)) now.

Definition isConnectionExpired (conn : ptr) : M bool :=
  c ← load conn;
  now ← time_Now;
  ret (expired_at c now).

Inductive error :=
| ErrConnectionExpired   (* errors.New("connection expired") *)
| ErrTimeoutWaiting      (* fmt.Errorf("timeout waiting for connection") *)
| ErrOpenConnection.     (* the error of a failed OpenConnection *)

(** Which case a [select] takes when both its receive and its timer can
    proceed (the runtime picks one at random). *)
Inductive Pick := PickReceive | PickTimer.

(** A timer [time.After(d)] is due at once iff [d <= 0]. *)
Definition timer_due (d : Duration) : bool := d <=? 0.

(** The [select] of [Acquire] and of [CloseExpiredConnections]: receive
    from [p.conns] or let the timer of duration [d] fire.  [Some x]:
    the receive case ran and got [x]; [None]: the timer case ran. *)
Definition select_recv (d : Duration) (pick : Pick) : M (option ptr) :=
  p ← get_pool;
  match Chan.recv (conns p) with
  | Chan.Received x _ c =>
      match timer_due d, pick with
      | true, PickTimer => ret None
      | _, _ => put_pool (set_conns c p);; ret (Some x)
      end
  | Chan.RecvBlocks => ret None
  end.

Definition Acquire (pick : Pick) : M (ptr * option error) :=
  p ← get_pool;
  r ← select_recv (waitTimeout p) pick;
  match r with
  | Some conn =>
      e ← isConnectionExpired conn;
      if e then
        c ← load conn;
        DB_Close (DB c);;
        ret (nil, Some ErrConnectionExpired)
      else ret (conn, None)
  | None => ret (nil, Some ErrTimeoutWaiting)
  end.

Definition Release (conn : ptr) : M unit :=
  now ← time_Now;
  c ← load conn;
  store conn (set_HeartBeat now c);;
  send_conns conn.

(** [p.cleanupTicker.Stop()]; the ticker is nil until [Open] has set it. *)
Definition Ticker_Stop : M unit :=
  p ← get_pool;
  match cleanupTicker p with
  | None => panic NilDereference
  | Some _ => put_pool (set_cleanupTicker (Some Stopped) p)
  end.

(** [close(p.conns)] *)
Definition close_conns : M unit :=
  p ← get_pool;
  match Chan.close (conns p) with
  | None => panic CloseOfClosedChannel
  | Some c => put_pool (set_conns c p)
  end.

(** [once.Do(f)] on the package-level [once]: [f] runs on the first call
    of the process only. *)
Definition once_Do (f : M unit) : M unit :=
  w ← get_world;
  if once_done w then ret tt
  else put_world (set_once_done true w);; f.

(** Taking the head off the buffer of [p.conns], as a receive does. *)
Definition pop_conns (rest : list ptr) : M unit :=
  p ← get_pool;
  put_pool (set_conns (Chan.set_buf rest (conns p)) p).

(** [for conn := range p.conns { conn.DB.Close() }], by recursion on the
    entries buffered in [p.conns] when the loop starts: the loop takes
    them in order and then either ends (the channel is closed) or waits
    for a send that never comes.  [drain_loop] below is the equation of
    the source loop. *)
Fixpoint drain (pending : list ptr) : M unit :=
  match pending with
  | conn :: rest =>
      pop_conns rest;;
      c ← load conn;
      DB_Close (DB c);;
      drain rest
  | [] =>
      p ← get_pool;
      if Chan.closed (conns p) then ret tt else block
  end.

Definition Close : M unit :=
  Ticker_Stop;;
  once_Do close_conns;;
  p ← get_pool;
  drain (Chan.buf (conns p)).

Definition timePerConn : Duration := 10 * Millisecond.

(** [p.conns = newConns] *)
Definition swap_conns (newConns : Chan.t) : M unit :=
  p ← get_pool;
  put_pool (set_conns newConns p).

(** What [CloseExpiredConnections] does with a received [conn]; [next]
    is the rest of the loop, given the state of [newConns]. *)
Definition classify (newConns : Chan.t) (conn : ptr) (next : Chan.t → M unit) : M unit :=
  c ← load conn;
  now ← time_Now;
  if negb (expired_at c now) then
    match Chan.send newConns conn with
    | Chan.Sent nc => next nc
    | Chan.SendBlocks => block
    | Chan.SendPanics => panic SendOnClosedChannel
    end
  else DB_Close (DB c);; next newConns.

(** The [for { select { ... } }] of [CloseExpiredConnections], by
    recursion on the entries buffered in [p.conns]; [evict_loop] below
    is the equation of the source loop. *)
Fixpoint evict (timeout : Duration) (pick : Pick) (newConns : Chan.t)
    (pending : list ptr) : M unit :=
  match pending with
  | conn :: rest =>
      match timer_due timeout, pick with
      | true, PickTimer => swap_conns newConns
      | _, _ =>
          pop_conns rest;;
          classify newConns conn (λ nc, evict timeout pick nc rest)
      end
  | [] =>
      p ← get_pool;
      if Chan.closed (conns p) then
        match timer_due timeout, pick with
        | true, PickTimer => swap_conns newConns
        | _, _ => panic NilDereference
        end
      else swap_conns newConns
  end.

Definition CloseExpiredConnections (pick : Pick) : M unit :=
  p ← get_pool;
  let timeout := Chan.len (conns p) * timePerConn in
  let newConns := Chan.make_unbuffered in
  evict timeout pick newConns (Chan.buf (conns p)).

(** The body of the loop of [MaintainMinConnections], run [n] times. *)
Fixpoint refill (n : nat) : M unit :=
  match n with
  | O => ret tt
  | S n' =>
      r ← call_OpenConnection;
      match r with
      | None => refill n'
      | Some conn => send_conns conn;; refill n'
      end
  end.

(** [for i := len(p.conns); i < p.minConnections; i++ { ... }] *)
Definition MaintainMinConnections : M unit :=
  p ← get_pool;
  refill (Z.to_nat (minConnections p - Chan.len (conns p))).

Definition Cleaner (pick : Pick) : M unit :=
  CloseExpiredConnections pick;;
  MaintainMinConnections.

(** The loop of [Open], run [n] times: [Some err] when a call of the
    factory fails. *)
Fixpoint open_loop (n : nat) : M (option error) :=
  match n with
  | O => ret None
  | S n' =>
      r ← call_OpenConnection;
      match r with
      | None => ret (Some ErrOpenConnection)
      | Some conn => send_conns conn;; open_loop n'
      end
  end.

(** [Open]; the goroutine it starts calls [Cleaner] on every tick. *)
Definition Open : M (option error) :=
  p ← get_pool;
  e ← open_loop (Z.to_nat (maxConnections p));
  match e with
  | Some err => ret (Some err)
  | None =>
      p' ← get_pool;
      put_pool (set_cleanupTicker (Some Running) p');;
      ret None
  end.

(** ** [package redispool]

    [RedisConn] has the fields of [DBConn] ([Conn] for [DB]), and [New],
    [Acquire], [Release], [isConnectionExpired], [Cleaner],
    [CloseExpiredConnections] and [MaintainMinConnections] are those of
    [dbpool] word for word.  [Open] and [Close] differ. *)

Module Redis.

Definition New := New.
Definition Acquire := Acquire.
Definition Release := Release.
Definition isConnectionExpired := isConnectionExpired.
Definition CloseExpiredConnections := CloseExpiredConnections.
Definition MaintainMinConnections := MaintainMinConnections.
Definition Cleaner := Cleaner.

Fixpoint open_loop (n : nat) : M (option error) :=
  match n with
  | O => ret None
  | S n' =>
      r ← call_OpenConnection;
      match r with
      | None => ret (Some ErrOpenConnection)
      | Some conn =>
          c ← load conn;
          (if Time_IsZero (HeartBeat c) then
             now ← time_Now;
             store conn (set_HeartBeat now c)
           else ret tt);;
          send_conns conn;;
          open_loop n'
      end
  end.

Definition Open : M (option error) :=
  p ← get_pool;
  e ← open_loop (Z.to_nat (maxConnections p));
  match e with
  | Some err => ret (Some err)
  | None =>
      p' ← get_pool;
      put_pool (set_cleanupTicker (Some Running) p');;
      ret None
  end.

Definition Close : M unit :=
  close_conns;;
  p ← get_pool;
  drain (Chan.buf (conns p)).

End Redis.

(** * Vocabulary of the properties *)

(** ** Entries, resources and factory calls *)

(** Every address of the list points to a connection. *)
Definition valid (w : World) (l : list ptr) : Prop :=
  Forall (λ conn, is_Some (deref w conn)) l.

(** The resources behind a list of connections. *)
Fixpoint resources (w : World) (l : list ptr) : list resource :=
  match l with
  | [] => []
  | conn :: rest =>
      match deref w conn with
      | Some c => DB c :: resources w rest
      | None => resources w rest
      end
  end.

(** Every entry of [pending] is a valid connection that is expired at
    the reading of the clock the eviction loop makes for it, the first
    of them being reading number [k]. *)
Fixpoint all_expired (w : World) (k : nat) (pending : list ptr) : Prop :=
  match pending with
  | [] => True
  | conn :: rest =>
      (∃ c, deref w conn = Some c ∧ expired_at c (clock w k) = true)
      ∧ all_expired w (S k) rest
  end.

(** The connections made by the calls number [k], ..., [k + n - 1] of
    the factory, that is, by those of them that succeed. *)
Fixpoint created (f : Factory) (k n : nat) : list Opened :=
  match n with
  | O => []
  | S n' =>
      match f k with
      | Some o => o :: created f (S k) n'
      | None => created f (S k) n'
      end
  end.

(** The structs that a list of factory results adds to the heap. *)
Fixpoint allocated (rs : list Opened) : list DBConn :=
  match rs with
  | [] => []
  | Allocated c :: rest => c :: allocated rest
  | Existing _ :: rest => allocated rest
  end.

(** The addresses that a list of factory results stands for, the heap
    having [h] cells before the first of them. *)
Fixpoint handed (h : nat) (rs : list Opened) : list ptr :=
  match rs with
  | [] => []
  | Allocated _ :: rest => S h :: handed (S h) rest
  | Existing conn :: rest => conn :: handed h rest
  end.

(** Every successful call of the factory allocates the struct it hands
    back, as [openNewConnection] does. *)
Definition allocates (f : Factory) : Prop :=
  ∀ k o, f k = Some o → ∃ c, o = Allocated c.

(** "Expired" in the words of the specification:
    [now >= lastActive + ttl]. *)
Definition spec_expired (c : DBConn) (now : Time) : bool :=
  HeartBeat c + TimeOut c <=? now.

(** The addresses given to [m] structs allocated on the heap [h]. *)
Definition fresh_ptrs (h : list DBConn) (m : nat) : list ptr :=
  S <$> seq (length h) m.

(** The number of turns of the loop of [MaintainMinConnections]: the
    entries missing up to [minConnections] when it starts. *)
Definition missing (p : ConnectionPool) : nat :=
  Z.to_nat (minConnections p - Chan.len (conns p)).

(** A pool after a [Close] that did all of its work: ticker stopped,
    store closed and empty. *)
Definition shut (p : ConnectionPool) : ConnectionPool :=
  {| conns := Chan.mk [] (Chan.cap (conns p)) true;
     maxConnections := maxConnections p;
     minConnections := minConnections p;
     waitTimeout := waitTimeout p;
     OpenConnection := OpenConnection p;
     cleanupTicker := Some Stopped |}.

(** ** Callers

    Callers run [Acquire] and [Release] in any order; a step is one call
    that returns, taken at its channel operation.  Beside the pool and
    the world, a configuration records who has been handed which entry
    and has not given it back. *)

Definition caller := nat.

Bind Scope nat_scope with caller.

Inductive Call :=
| CallAcquire (who : caller) (pick : Pick)
| CallRelease (who : caller) (conn : ptr).

Record Config := mkConfig {
  cpool : ConnectionPool;
  cworld : World;
  held : list (caller * ptr);
}.

(** One hand-out less of [h], if there is one. *)
Fixpoint give_back (h : caller * ptr) (l : list (caller * ptr)) : list (caller * ptr) :=
  match l with
  | [] => []
  | x :: rest => if decide (x = h) then rest else x :: give_back h rest
  end.

(** [None]: the call panics or blocks. *)
Definition step (cfg : Config) (call : Call) : option Config :=
  match call with
  | CallAcquire who pick =>
      match Acquire pick (cpool cfg) (cworld cfg) with
      | Returns (conn, None) p w => Some (mkConfig p w ((who, conn) :: held cfg))
      | Returns (_, Some _) p w => Some (mkConfig p w (held cfg))
      | _ => None
      end
  | CallRelease who conn =>
      match Release conn (cpool cfg) (cworld cfg) with
      | Returns _ p w => Some (mkConfig p w (give_back (who, conn) (held cfg)))
      | _ => None
      end
  end.

Fixpoint run (calls : list Call) (cfg : Config) : option Config :=
  match calls with
  | [] => Some cfg
  | call :: rest =>
      match step cfg call with
      | Some cfg' => run rest cfg'
      | None => None
      end
  end.

(** The caller of a [Release] holds the entry it releases. *)
Definition owns (cfg : Config) (call : Call) : bool :=
  match call with
  | CallAcquire _ _ => true
  | CallRelease who conn => bool_decide ((who, conn) ∈ held cfg)
  end.

(** Every [Release] of the run is made by a holder of the entry. *)
Fixpoint honest (calls : list Call) (cfg : Config) : bool :=
  match calls with
  | [] => true
  | call :: rest =>
      owns cfg call &&
      match step cfg call with
      | Some cfg' => honest rest cfg'
      | None => true
      end
  end.

(** Every entry is idle in the store once, or held once, or neither. *)
Definition exclusive (cfg : Config) : Prop :=
  NoDup (Chan.buf (conns (cpool cfg)) ++ (held cfg).*2).

(** ** Worlds and pools of the examples *)

(** A world with the given connection structs, in which nothing has
    happened yet and every reading of the clock gives [now]. *)
Definition world_at (now : Time) (h : list DBConn) : World :=
  {| heap := h; closes := []; once_done := false;
     clock := λ _, now; ticks := O; opens := O |}.

(** The pool of the tests: [New(10, 5, 30*time.Second)]. *)
Definition test_pool : ConnectionPool :=
  {| conns := Chan.mk [] 10 false;
     maxConnections := 10; minConnections := 5;
     waitTimeout := 30 * Second;
     OpenConnection := None; cleanupTicker := None |}.

(** [test_pool] with the given addresses idle in its store. *)
Definition test_pool_with (idle : list ptr) : ConnectionPool :=
  set_conns (Chan.set_buf idle (conns test_pool)) test_pool.

(** A connection whose heartbeat was at [t], with a time-out of ten
    seconds. *)
Definition conn_at (r : resource) (t : Time) : DBConn :=
  {| DB := r; HeartBeat := t; TimeOut := 10 * Second |}.

(** A factory that never fails: the [k]-th connection owns resource [k]
    and is made with its heartbeat at second 1000. *)
Definition fresh_conn : Factory := λ k, Some (Allocated (conn_at k (1000 * Second))).

(** A factory whose odd-numbered calls fail. *)
Definition flaky_conn : Factory :=
  λ k, if Nat.odd k then None else Some (Allocated (conn_at k (1000 * Second))).

(** The scenario of the specification, [Open(max=3, min=1)]: the pool
    as [New] makes it, with its factory set. *)
Definition scenario_pool : ConnectionPool :=
  {| conns := Chan.mk [] 3 false;
     maxConnections := 3; minConnections := 1;
     waitTimeout := 5 * Second;
     OpenConnection := Some fresh_conn; cleanupTicker := None |}.

(** The same pool and its world after [Open]. *)
Definition opened_pool : ConnectionPool :=
  {| conns := Chan.mk [1; 2; 3]%nat 3 false;
     maxConnections := 3; minConnections := 1;
     waitTimeout := 5 * Second;
     OpenConnection := Some fresh_conn; cleanupTicker := Some Running |}.

Definition opened_world (now : Time) : World :=
  {| heap := [conn_at 0 (1000 * Second); conn_at 1 (1000 * Second);
              conn_at 2 (1000 * Second)];
     closes := []; once_done := false;
     clock := λ _, now; ticks := O; opens := 3 |}.

Definition scenario_start : Config :=
  {| cpool := opened_pool; cworld := opened_world (1005 * Second); held := [] |}.

(** A second pool, [New(2, 1, 5*time.Second)], opened after the pool of
    the scenario in the same process. *)
Definition second_pool : ConnectionPool :=
  {| conns := Chan.mk [4; 5]%nat 2 false;
     maxConnections := 2; minConnections := 1;
     waitTimeout := 5 * Second;
     OpenConnection := Some fresh_conn; cleanupTicker := Some Running |}.

Definition two_pools_world (now : Time) : World :=
  {| heap := [conn_at 0 (1000 * Second); conn_at 1 (1000 * Second);
              conn_at 2 (1000 * Second); conn_at 3 (1000 * Second);
              conn_at 4 (1000 * Second)];
     closes := []; once_done := false;
     clock := λ _, now; ticks := O; opens := 5 |}.

(** ** Further code of the two packages, and its callers *)

(** [Check]: [conn.DB.Ping() == nil].  The ping goes to the server; its
    answer for a resource is given by [ping]. *)
Definition Check (ping : resource → bool) (conn : ptr) : M bool :=
  c ← load conn;
  ret (ping (DB c)).

(** The body of the goroutines of the [dbpool] demo:
    [conn, _ := pool.Acquire(); hc := pool.Check(conn); ...; pool.Release(conn)]. *)
Definition worker (ping : resource → bool) (pick : Pick) : M bool :=
  r ← Acquire pick;
  hc ← Check ping r.1;
  Release r.1;;
  ret hc.

(** The pool and the world in which a call ends, whatever its outcome. *)
Definition outcome_pool {A} (o : Outcome A) : ConnectionPool :=
  match o with
  | Returns _ p _ | Panics _ p _ | Blocks p _ => p
  end.

Definition outcome_world {A} (o : Outcome A) : World :=
  match o with
  | Returns _ _ w | Panics _ _ w | Blocks _ w => w
  end.

(** The calls number [k], ..., [k + n - 1] of the factory all succeed. *)
Definition succeeds (f : Factory) (k n : nat) : Prop :=
  ∀ i, (i < n)%nat → is_Some (f (k + i)%nat).

(** The world after the first statement of [Release]:
    [conn.HeartBeat = time.Now()]. *)
Definition stamped (conn : ptr) (c : DBConn) (w : World) : World :=
  set_heap (<[Nat.pred conn := set_HeartBeat (clock w (ticks w)) c]> (heap w))
    (set_ticks (S (ticks w)) w).

(** The entries accounted for in a configuration: idle in the store,
    handed out, or closed. *)
Definition tally (cfg : Config) : nat :=
  (length (Chan.buf (conns (cpool cfg))) + length (held cfg)
   + length (closes (cworld cfg)))%nat.

(** The store is open, the idle and the handed-out entries fit together
    in its capacity, and every handed-out entry is a valid connection. *)
Definition sound (cfg : Config) : Prop :=
  Chan.closed (conns (cpool cfg)) = false
  ∧ Z.of_nat (length (Chan.buf (conns (cpool cfg))) + length (held cfg))
    ≤ Chan.cap (conns (cpool cfg))
  ∧ ∀ who conn, (who, conn) ∈ held cfg → is_Some (deref (cworld cfg) conn).

(** * Properties *)

Ltac run_monad :=
  unfold bind, ret, panic, block, get_pool, put_pool, get_world, put_world in *.

Lemma pool_eta (p : ConnectionPool) : set_conns (conns p) p = p.
Proof. by destruct p. Qed.

Lemma chan_eta (c : Chan.t) : Chan.set_buf (Chan.buf c) c = c.
Proof. by destruct c. Qed.

(** ** The loops, as the source writes them *)

(** [for conn := range p.conns { conn.DB.Close() }]: receive; leave when
    the channel is closed and drained; otherwise close and go round. *)
Lemma drain_loop (p : ConnectionPool) (w : World) :
  drain (Chan.buf (conns p)) p w =
  match Chan.recv (conns p) with
  | Chan.Received conn true c =>
      (put_pool (set_conns c p);;
       c ← load conn;
       DB_Close (DB c);;
       p' ← get_pool;
       drain (Chan.buf (conns p'))) p w
  | Chan.Received _ false _ => Returns tt p w
  | Chan.RecvBlocks => Blocks p w
  end.
Proof.
  unfold Chan.recv.
  destruct (Chan.buf (conns p)) as [|conn rest] eqn:Hb; simpl.
  - run_monad. by destruct (Chan.closed (conns p)).
  - unfold pop_conns, load, DB_Close. run_monad. simpl.
    destruct (deref w conn); reflexivity.
Qed.

(** [for { select { case conn := <-p.conns: ... case <-time.After(timeout): ... } }] *)
Lemma evict_loop (timeout : Duration) (pick : Pick) (newConns : Chan.t)
    (p : ConnectionPool) (w : World) :
  evict timeout pick newConns (Chan.buf (conns p)) p w =
  (r ← select_recv timeout pick;
   match r with
   | Some conn =>
       classify newConns conn
         (λ nc, p' ← get_pool; evict timeout pick nc (Chan.buf (conns p')))
   | None => swap_conns newConns
   end) p w.
Proof.
  unfold select_recv, Chan.recv.
  destruct (Chan.buf (conns p)) as [|conn rest] eqn:Hb; simpl.
  - run_monad. rewrite Hb.
    destruct (Chan.closed (conns p)); [|done].
    destruct (timer_due timeout), pick; try done.
    all: unfold classify, load; run_monad; simpl.
    all: by rewrite pool_eta.
  - run_monad. rewrite Hb.
    destruct (timer_due timeout), pick; try done.
    all: unfold pop_conns, classify, load, time_Now, DB_Close; run_monad; simpl.
    all: destruct (deref w conn); [|done].
    all: destruct (negb _); [|reflexivity].
    all: destruct (Chan.send newConns conn); reflexivity.
Qed.

(** ** The examples are states of the program *)

Lemma test_pool_New : New 10 5 (30 * Second) = Some test_pool.
Proof. reflexivity. Qed.

Lemma scenario_pool_New :
  set_OpenConnection (Some fresh_conn) <$> New 3 1 (5 * Second) = Some scenario_pool.
Proof. reflexivity. Qed.

Lemma scenario_Open (now : Time) :
  Open scenario_pool (world_at now []) = Returns None opened_pool (opened_world now).
Proof. reflexivity. Qed.

(** [redispool.Open] stamps the connections whose heartbeat is zero. *)
Example Redis_Open_stamps :
  Redis.Open
    (set_OpenConnection (Some (λ k, Some (Allocated (mkDBConn k 0 (10 * Second))))) scenario_pool)
    (world_at (1000 * Second) [])
  = Returns None
      (set_OpenConnection (Some (λ k, Some (Allocated (mkDBConn k 0 (10 * Second))))) opened_pool)
      (set_ticks 3 (opened_world (1000 * Second))).
Proof. reflexivity. Qed.

Lemma second_pool_Open (now : Time) :
  (λ p, Open (set_OpenConnection (Some fresh_conn) p) (opened_world now))
    <$> New 2 1 (5 * Second)
  = Some (Returns None second_pool (two_pools_world now)).
Proof. reflexivity. Qed.

(** A failing factory call aborts [Open] and leaves the pool partly
    filled, with no ticker. *)
Example Open_aborts :
  Open (set_OpenConnection (Some flaky_conn) scenario_pool) (world_at 0 [])
  = Returns (Some ErrOpenConnection)
      (set_OpenConnection (Some flaky_conn)
         (set_conns (Chan.mk [1%nat] 3 false) scenario_pool))
      (set_opens 2 (set_heap [conn_at 0 (1000 * Second)] (world_at 0 []))).
Proof. reflexivity. Qed.

(** With a factory that allocates what it hands back, [Open] on an
    empty store leaves no entry in it twice: the factory calls give
    fresh addresses. *)
Lemma open_loop_buf (n : nat) (p p' : ConnectionPool) (w w' : World)
    (e : option error) :
  (∀ f, OpenConnection p = Some f → allocates f) →
  open_loop n p w = Returns e p' w' →
  ∃ k, Chan.buf (conns p') = Chan.buf (conns p) ++ fresh_ptrs (heap w) k.
Proof.
  revert p w.
  induction n as [|n IH]; intros p w Hal; simpl.
  - run_monad. intros [= <- <- <-]. exists O. by rewrite app_nil_r.
  - unfold call_OpenConnection, send_conns. run_monad.
    destruct (OpenConnection p) as [f|] eqn:Hf; [|done]. simpl.
    destruct (f (opens w)) as [[c|conn]|] eqn:Hk; simpl.
    + destruct (Chan.send (conns p) (S (length (heap w)))) as [ch| |] eqn:Hs;
        [|done..].
      intros (k & Hk')%IH; [|by simpl; rewrite Hf]. exists (S k). rewrite Hk'. simpl.
      unfold Chan.send in Hs.
      destruct (Chan.closed (conns p)); [done|].
      destruct (Chan.len (conns p) <? Chan.cap (conns p)); [|done].
      injection Hs as <-. simpl. unfold fresh_ptrs. simpl.
      rewrite length_app, Nat.add_1_r, <- app_assoc. reflexivity.
    + by destruct (Hal f eq_refl _ _ Hk) as [c [=]].
    + intros [= <- <- <-]. exists O. by rewrite app_nil_r.
Qed.

Lemma fresh_ptrs_NoDup (h : list DBConn) (k : nat) : NoDup (fresh_ptrs h k).
Proof.
  unfold fresh_ptrs. apply NoDup_fmap_2; [apply _ | apply NoDup_seq].
Qed.

Lemma Open_exclusive (p p' : ConnectionPool) (w w' : World) (e : option error) :
  (∀ f, OpenConnection p = Some f → allocates f) →
  Chan.buf (conns p) = [] →
  Open p w = Returns e p' w' →
  exclusive (mkConfig p' w' []).
Proof.
  intros Hal Hb. unfold Open, exclusive. run_monad. simpl.
  destruct (open_loop _ p w) as [e0 p0 w0| |] eqn:Hloop; [|done..].
  apply open_loop_buf in Hloop as [k Hk]; [|done]. rewrite Hb in Hk. simpl in Hk.
  rewrite app_nil_r.
  destruct e0; intros [= <- <- <-]; simpl; rewrite Hk; apply fresh_ptrs_NoDup.
Qed.

(** ** [New] *)

Lemma max_cap_value : Chan.max_cap = 2 ^ 45 - 13.
Proof. reflexivity. Qed.

(** [make] panics exactly outside [0 .. Chan.max_cap]. *)
Lemma make_spec (n : Z) :
  Chan.make n
  = if (0 <=? n) && (n <=? Chan.max_cap)
    then Some {| Chan.buf := []; Chan.cap := n; Chan.closed := false |}
    else None.
Proof.
  unfold Chan.make. rewrite max_cap_value.
  change (Chan.maxAlloc - Chan.hchanSize) with 281474976710552.
  change Chan.elemsize with 8. change (2 ^ 45 - 13) with 35184372088819.
  destruct (Z.ltb_spec n 0), (Z.leb_spec 0 n); try lia; simpl; [done|].
  destruct (Z.ltb_spec 281474976710552 (8 * n)), (Z.leb_spec n 35184372088819);
    try lia; done.
Qed.




(** [New] stops, by the panic of [make], exactly for a capacity that is
    negative or above [Chan.max_cap]. *)
Lemma New_panics_iff (maxC minC : Z) (wt : Duration) :
  New maxC minC wt = None ↔ maxC < 0 ∨ Chan.max_cap < maxC.
Proof.
  unfold New. rewrite make_spec.
  destruct (Z.leb_spec 0 maxC), (Z.leb_spec maxC Chan.max_cap); simpl;
    split; try done; lia.
Qed.

Lemma New_negative (maxC minC : Z) (wt : Duration) :
  maxC < 0 → New maxC minC wt = None.
Proof. intros Hneg. apply New_panics_iff. by left. Qed.

(** A pool that [New] has returned: empty open store of capacity
    [maxConnections], within the limit of [make]; no factory, no
    ticker. *)
Lemma New_Some (maxC minC : Z) (wt : Duration) (p : ConnectionPool) :
  New maxC minC wt = Some p →
  0 ≤ maxC ≤ Chan.max_cap
  ∧ p = {| conns := Chan.mk [] maxC false;
           maxConnections := maxC; minConnections := minC; waitTimeout := wt;
           OpenConnection := None; cleanupTicker := None |}.
Proof.
  unfold New. rewrite make_spec.
  destruct (Z.leb_spec 0 maxC), (Z.leb_spec maxC Chan.max_cap); simpl; try done.
  intros [= <-]. split; [lia | done].
Qed.

(** ** Expiry *)

Lemma expired_at_lt (c : DBConn) (now : Time) :
  expired_at c now = true ↔ HeartBeat c + TimeOut c < now.
Proof. unfold expired_at, Time_Before, Time_Add. apply Z.ltb_lt. Qed.

(** C8, as the code has it: [isConnectionExpired] answers [true] exactly
    when [lastActive + ttl < now], with a strict comparison; it reads the
    clock once and changes nothing else. *)
Theorem isConnectionExpired_strict (p : ConnectionPool) (w : World)
    (conn : ptr) (c : DBConn) :
  deref w conn = Some c →
  ∃ b, isConnectionExpired conn p w = Returns b p (set_ticks (S (ticks w)) w)
       ∧ (b = true ↔ HeartBeat c + TimeOut c < clock w (ticks w)).
Proof.
  intros Hc. exists (expired_at c (clock w (ticks w))). split.
  - unfold isConnectionExpired, load, time_Now. run_monad. by rewrite Hc.
  - apply expired_at_lt.
Qed.

Lemma isConnectionExpired_strict_witness :
  deref (world_at (1011 * Second) [conn_at 7 (1000 * Second)]) 1
    = Some (conn_at 7 (1000 * Second)) ∧
  ∃ b, isConnectionExpired 1 test_pool
         (world_at (1011 * Second) [conn_at 7 (1000 * Second)])
       = Returns b test_pool
           (set_ticks 1 (world_at (1011 * Second) [conn_at 7 (1000 * Second)]))
       ∧ (b = true ↔
          HeartBeat (conn_at 7 (1000 * Second)) + TimeOut (conn_at 7 (1000 * Second))
          < clock (world_at (1011 * Second) [conn_at 7 (1000 * Second)]) O).
Proof.
  split; [reflexivity|].
  apply (isConnectionExpired_strict test_pool
           (world_at (1011 * Second) [conn_at 7 (1000 * Second)]) 1
           (conn_at 7 (1000 * Second))).
  reflexivity.
Defined.

(** C8, as stated, fails at the boundary: at the instant
    [now = lastActive + ttl] the code says "not expired". *)
Lemma isConnectionExpired_boundary :
  HeartBeat (conn_at 7 (1000 * Second)) + TimeOut (conn_at 7 (1000 * Second))
    ≤ clock (world_at (1010 * Second) [conn_at 7 (1000 * Second)]) O
  ∧ isConnectionExpired 1 test_pool
      (world_at (1010 * Second) [conn_at 7 (1000 * Second)])
    = Returns false test_pool
        (set_ticks 1 (world_at (1010 * Second) [conn_at 7 (1000 * Second)])).
Proof. split; [vm_compute; discriminate | reflexivity]. Qed.

(** ** [Acquire] *)

(** C3, with the boundary of the code.  When [Acquire] pulls an entry
    from the store (the store's head is a valid [conn] and the [select]
    takes its receive case), the entry leaves the store.  If
    [lastActive + ttl < now], [Acquire] closes its resource and returns
    [nil] with the error "connection expired".  If
    [now <= lastActive + ttl], it returns the entry with a nil error and
    closes nothing: this includes the instant [now = lastActive + ttl],
    at which the specification counts the entry as expired. *)
Theorem Acquire_pulled_entry (pick : Pick) (p : ConnectionPool) (w : World)
    (conn : ptr) (rest : list ptr) (c : DBConn) :
  Chan.buf (conns p) = conn :: rest →
  deref w conn = Some c →
  timer_due (waitTimeout p) = false ∨ pick = PickReceive →
  (HeartBeat c + TimeOut c < clock w (ticks w) →
   Acquire pick p w
   = Returns (nil, Some ErrConnectionExpired)
       (set_conns (Chan.set_buf rest (conns p)) p)
       (set_closes (closes w ++ [DB c]) (set_ticks (S (ticks w)) w)))
  ∧ (clock w (ticks w) ≤ HeartBeat c + TimeOut c →
     Acquire pick p w
     = Returns (conn, None)
         (set_conns (Chan.set_buf rest (conns p)) p)
         (set_ticks (S (ticks w)) w)).
Proof.
  intros Hb Hc Hsel.
  assert (Hacq : Acquire pick p w =
    if expired_at c (clock w (ticks w))
    then Returns (nil, Some ErrConnectionExpired)
           (set_conns (Chan.set_buf rest (conns p)) p)
           (set_closes (closes w ++ [DB c]) (set_ticks (S (ticks w)) w))
    else Returns (conn, None)
           (set_conns (Chan.set_buf rest (conns p)) p)
           (set_ticks (S (ticks w)) w)).
  { unfold Acquire, select_recv, isConnectionExpired, load, time_Now, DB_Close,
      Chan.recv.
    run_monad. rewrite Hb.
    assert (Hrecv : match timer_due (waitTimeout p), pick with
                    | true, PickTimer => false
                    | _, _ => true
                    end = true).
    { destruct Hsel as [-> | ->]; [done | by destruct (timer_due _)]. }
    destruct (timer_due (waitTimeout p)), pick; try discriminate Hrecv.
    all: simpl; rewrite Hc.
    all: destruct (expired_at c (clock w (ticks w))); [|reflexivity].
    all: change (deref (set_ticks (S (ticks w)) w) conn) with (deref w conn).
    all: by rewrite Hc. }
  rewrite Hacq. unfold expired_at, Time_Before, Time_Add.
  split; intros Hcmp.
  - by destruct (Z.ltb_spec (HeartBeat c + TimeOut c) (clock w (ticks w))); [|lia].
  - by destruct (Z.ltb_spec (HeartBeat c + TimeOut c) (clock w (ticks w))); [lia|].
Qed.

(** An entry with [ttl = 10s]: pulled at [lastActive + 11s] it is
    rejected and closed; pulled at [lastActive + 5s] it is handed out. *)
Lemma Acquire_pulled_entry_witness :
  Acquire PickReceive (test_pool_with [1%nat])
    (world_at (1011 * Second) [conn_at 7 (1000 * Second)])
  = Returns (nil, Some ErrConnectionExpired)
      (set_conns (Chan.set_buf [] (conns (test_pool_with [1%nat])))
         (test_pool_with [1%nat]))
      (set_closes
         (closes (world_at (1011 * Second) [conn_at 7 (1000 * Second)])
            ++ [DB (conn_at 7 (1000 * Second))])
         (set_ticks
            (S (ticks (world_at (1011 * Second) [conn_at 7 (1000 * Second)])))
            (world_at (1011 * Second) [conn_at 7 (1000 * Second)])))
  ∧ Acquire PickReceive (test_pool_with [1%nat])
      (world_at (1005 * Second) [conn_at 7 (1000 * Second)])
    = Returns (1%nat, None)
        (set_conns (Chan.set_buf [] (conns (test_pool_with [1%nat])))
           (test_pool_with [1%nat]))
        (set_ticks
           (S (ticks (world_at (1005 * Second) [conn_at 7 (1000 * Second)])))
           (world_at (1005 * Second) [conn_at 7 (1000 * Second)])).
Proof.
  split.
  - apply (Acquire_pulled_entry PickReceive (test_pool_with [1%nat])
             (world_at (1011 * Second) [conn_at 7 (1000 * Second)])
             1 [] (conn_at 7 (1000 * Second))).
    + reflexivity.
    + reflexivity.
    + by left.
    + by vm_compute.
  - apply (Acquire_pulled_entry PickReceive (test_pool_with [1%nat])
             (world_at (1005 * Second) [conn_at 7 (1000 * Second)])
             1 [] (conn_at 7 (1000 * Second))).
    + reflexivity.
    + reflexivity.
    + by left.
    + vm_compute. discriminate.
Defined.

(** C3, as stated, fails at the boundary.  An entry with [ttl = 10s]
    pulled at the instant [now = lastActive + 10s] is expired in the
    words of the specification, and [Acquire] hands it to the caller
    with a nil error, closing nothing. *)
Lemma Acquire_boundary_handout :
  spec_expired (conn_at 7 (1000 * Second))
    (clock (world_at (1010 * Second) [conn_at 7 (1000 * Second)]) O) = true
  ∧ Acquire PickReceive (test_pool_with [1%nat])
      (world_at (1010 * Second) [conn_at 7 (1000 * Second)])
    = Returns (1%nat, None) (test_pool_with [])
        (set_ticks 1 (world_at (1010 * Second) [conn_at 7 (1000 * Second)]))
  ∧ closes (set_ticks 1 (world_at (1010 * Second) [conn_at 7 (1000 * Second)])) = [].
Proof. repeat split. Qed.

(** Away from the boundary the two notions agree: the code's test
    implies the specification's, and the specification's implies the
    code's unless [now = lastActive + ttl]. *)
Lemma expired_at_spec (c : DBConn) (now : Time) :
  (expired_at c now = true → spec_expired c now = true)
  ∧ (spec_expired c now = true → now ≠ HeartBeat c + TimeOut c →
     expired_at c now = true).
Proof.
  unfold expired_at, spec_expired, Time_Before, Time_Add.
  destruct (Z.ltb_spec (HeartBeat c + TimeOut c) now),
    (Z.leb_spec (HeartBeat c + TimeOut c) now); split; try done; lia.
Qed.

(** The two cases of the expiry test of the specification, evaluated. *)
Example Acquire_11s_old :
  Acquire PickReceive (test_pool_with [1%nat])
    (world_at (1011 * Second) [conn_at 7 (1000 * Second)])
  = Returns (nil, Some ErrConnectionExpired) (test_pool_with [])
      (set_closes [7%nat] (set_ticks 1 (world_at (1011 * Second) [conn_at 7 (1000 * Second)]))).
Proof. reflexivity. Qed.

Example Acquire_5s_old :
  Acquire PickReceive (test_pool_with [1%nat])
    (world_at (1005 * Second) [conn_at 7 (1000 * Second)])
  = Returns (1%nat, None) (test_pool_with [])
      (set_ticks 1 (world_at (1005 * Second) [conn_at 7 (1000 * Second)])).
Proof. reflexivity. Qed.

(** With the store empty and open, [Acquire] times out. *)
Lemma Acquire_empty (pick : Pick) (p : ConnectionPool) (w : World) :
  Chan.buf (conns p) = [] →
  Chan.closed (conns p) = false →
  Acquire pick p w = Returns (nil, Some ErrTimeoutWaiting) p w.
Proof.
  intros Hb Hc. unfold Acquire, select_recv, Chan.recv. run_monad.
  by rewrite Hb, Hc.
Qed.

(** With the store drained and closed, the receive yields [nil] and the
    expiry check dereferences it. *)
Lemma Acquire_closed (pick : Pick) (p : ConnectionPool) (w : World) :
  Chan.buf (conns p) = [] →
  Chan.closed (conns p) = true →
  timer_due (waitTimeout p) = false ∨ pick = PickReceive →
  Acquire pick p w = Panics NilDereference p w.
Proof.
  intros Hb Hc Hsel.
  unfold Acquire, select_recv, isConnectionExpired, load, Chan.recv. run_monad.
  rewrite Hb, Hc.
  destruct Hsel as [-> | ->]; [|destruct (timer_due _)]; simpl.
  all: by rewrite pool_eta.
Qed.

(** No expired entry is handed out: an entry that [Acquire] returns is
    a valid connection, not expired at the reading of the clock that
    [Acquire] has made. *)
Lemma Acquire_hands_live (pick : Pick) (p p' : ConnectionPool) (w w' : World)
    (conn : ptr) :
  Acquire pick p w = Returns (conn, None) p' w' →
  ∃ c, deref w conn = Some c ∧ expired_at c (clock w (ticks w)) = false.
Proof.
  unfold Acquire, select_recv, isConnectionExpired, load, time_Now, DB_Close.
  run_monad.
  destruct (Chan.recv (conns p)) as [x ok ch|]; [|done].
  destruct (timer_due (waitTimeout p)), pick; simpl; try done.
  all: destruct (deref w x) as [c|] eqn:Hc; [|done].
  all: simpl.
  all: destruct (expired_at c (clock w (ticks w))) eqn:He; simpl.
  all: try (change (deref (set_ticks (S (ticks w)) w) x) with (deref w x);
            by rewrite Hc).
  all: intros [= <- <- <-]; by exists c.
Qed.

(** ** [Release] *)

(** [Release] stamps the entry and puts it at the back of the store. *)
Example Release_stamps :
  Release 1 (test_pool_with [2%nat])
    (world_at (1005 * Second) [conn_at 7 (1000 * Second); conn_at 8 (1000 * Second)])
  = Returns tt (test_pool_with [2; 1]%nat)
      (set_ticks 1
         (world_at (1005 * Second)
            [conn_at 7 (1005 * Second); conn_at 8 (1000 * Second)])).
Proof. reflexivity. Qed.

(** On a full store it blocks, the heartbeat already written. *)
Example Release_full_blocks :
  Release 1 opened_pool (opened_world (1005 * Second))
  = Blocks opened_pool
      (set_ticks 1
         (set_heap
            [conn_at 0 (1005 * Second); conn_at 1 (1000 * Second);
             conn_at 2 (1000 * Second)]
            (opened_world (1005 * Second)))).
Proof. reflexivity. Qed.

(** After [Close] it panics: send on closed channel. *)
Example Release_after_Close :
  Release 1 (shut opened_pool) (opened_world (1005 * Second))
  = Panics SendOnClosedChannel (shut opened_pool)
      (set_ticks 1
         (set_heap
            [conn_at 0 (1005 * Second); conn_at 1 (1000 * Second);
             conn_at 2 (1000 * Second)]
            (opened_world (1005 * Second)))).
Proof. reflexivity. Qed.

(** ** [CloseExpiredConnections] *)

(** A channel without free space takes no send. *)
Lemma send_full (c : Chan.t) (x : ptr) :
  Chan.cap c ≤ Chan.len c →
  Chan.send c x = Chan.SendBlocks ∨ Chan.send c x = Chan.SendPanics.
Proof.
  intros Hfull. unfold Chan.send.
  destruct (Chan.closed c); [by right|].
  destruct (Z.ltb_spec (Chan.len c) (Chan.cap c)); [lia | by left].
Qed.

(** Whenever the eviction loop ends, the store of the pool is the
    channel [newConns] it started with, provided that one had no free
    space, as [make(chan *DBConn)] has none. *)
Lemma evict_Returns (timeout : Duration) (pick : Pick) (nc : Chan.t)
    (pending : list ptr) (p p' : ConnectionPool) (w w' : World) :
  Chan.cap nc ≤ Chan.len nc →
  evict timeout pick nc pending p w = Returns tt p' w' →
  p' = set_conns nc p.
Proof.
  intros Hfull. revert p w.
  induction pending as [|conn rest IH]; intros p w; simpl.
  - unfold swap_conns. run_monad.
    destruct (Chan.closed (conns p)); [destruct (timer_due timeout), pick|].
    all: intros H; inversion H; done.
  - unfold swap_conns, pop_conns, classify, load, time_Now, DB_Close. run_monad.
    assert (Hgo :
      match deref w conn with
      | Some c =>
          if negb (expired_at c (clock w (ticks w)))
          then match Chan.send nc conn with
               | Chan.Sent nc' =>
                   evict timeout pick nc' rest
                     (set_conns (Chan.set_buf rest (conns p)) p)
                     (set_ticks (S (ticks w)) w)
               | Chan.SendBlocks =>
                   Blocks (set_conns (Chan.set_buf rest (conns p)) p)
                     (set_ticks (S (ticks w)) w)
               | Chan.SendPanics =>
                   Panics SendOnClosedChannel
                     (set_conns (Chan.set_buf rest (conns p)) p)
                     (set_ticks (S (ticks w)) w)
               end
          else evict timeout pick nc rest
                 (set_conns (Chan.set_buf rest (conns p)) p)
                 (set_closes (closes w ++ [DB c]) (set_ticks (S (ticks w)) w))
      | None => Panics NilDereference (set_conns (Chan.set_buf rest (conns p)) p) w
      end = Returns tt p' w' → p' = set_conns nc p).
    { destruct (deref w conn) as [c|]; [|done].
      destruct (negb _).
      - by destruct (send_full nc conn Hfull) as [-> | ->].
      - intros H. by rewrite (IH _ _ H). }
    destruct (timer_due timeout), pick; simpl.
    2: { intros H; inversion H; done. }
    all: intros H; apply Hgo; revert H; simpl.
    all: destruct (deref w conn) as [c|]; [|done].
    all: destruct (negb _); [|done].
    all: by destruct (Chan.send nc conn).
Qed.

(** C1 fails on the code.  Whenever [CloseExpiredConnections] returns,
    the store of the pool is the unbuffered channel it has just made:
    the capacity of the store is [0] from then on, whatever
    [maxConnections] is. *)
Theorem CloseExpiredConnections_replaces_store (pick : Pick)
    (p p' : ConnectionPool) (w w' : World) :
  CloseExpiredConnections pick p w = Returns tt p' w' →
  p' = set_conns Chan.make_unbuffered p
  ∧ Chan.cap (conns p') = 0
  ∧ maxConnections p' = maxConnections p.
Proof.
  unfold CloseExpiredConnections. run_monad.
  intros H. apply evict_Returns in H; [|by vm_compute].
  by subst p'.
Qed.

(** After [Open(max=3, min=1)], with every idle entry past its time-out,
    the eviction returns: the capacity of the store was [3], as
    [maxConnections] is, and is [0] afterwards. *)
Lemma CloseExpiredConnections_replaces_store_witness :
  Chan.cap (conns opened_pool) = 3
  ∧ CloseExpiredConnections PickReceive opened_pool (opened_world (1011 * Second))
    = Returns tt (set_conns Chan.make_unbuffered opened_pool)
        (set_closes [0; 1; 2]%nat (set_ticks 3 (opened_world (1011 * Second))))
  ∧ set_conns Chan.make_unbuffered opened_pool
    = set_conns Chan.make_unbuffered opened_pool
  ∧ Chan.cap (conns (set_conns Chan.make_unbuffered opened_pool)) = 0
  ∧ maxConnections (set_conns Chan.make_unbuffered opened_pool)
    = maxConnections opened_pool.
Proof.
  split; [reflexivity|]. split; [reflexivity|].
  apply (CloseExpiredConnections_replaces_store PickReceive opened_pool
           (set_conns Chan.make_unbuffered opened_pool)
           (opened_world (1011 * Second))
           (set_closes [0; 1; 2]%nat (set_ticks 3 (opened_world (1011 * Second))))).
  reflexivity.
Defined.

(** The first entry that is not expired stops the eviction for good:
    the send on [newConns] blocks, since [newConns] has no buffer and,
    being local to the call until the loop ends, no receiver in any
    goroutine.  The entry is then neither in the store nor closed. *)
Lemma evict_live_blocks (timeout : Duration) (pick : Pick) (nc : Chan.t)
    (conn : ptr) (rest : list ptr) (c : DBConn)
    (p : ConnectionPool) (w : World) :
  timer_due timeout = false ∨ pick = PickReceive →
  Chan.cap nc ≤ Chan.len nc →
  Chan.closed nc = false →
  deref w conn = Some c →
  expired_at c (clock w (ticks w)) = false →
  evict timeout pick nc (conn :: rest) p w
  = Blocks (set_conns (Chan.set_buf rest (conns p)) p) (set_ticks (S (ticks w)) w).
Proof.
  intros Hsel Hfull Hopen Hc Hlive. simpl.
  assert (Hsend : Chan.send nc conn = Chan.SendBlocks).
  { destruct (send_full nc conn Hfull) as [H|H]; [done|].
    unfold Chan.send in H. rewrite Hopen in H.
    by destruct (Chan.len nc <? Chan.cap nc). }
  unfold pop_conns, classify, load, time_Now. run_monad.
  destruct Hsel as [-> | ->]; [|destruct (timer_due timeout)]; simpl.
  all: by rewrite Hc, Hlive, Hsend.
Qed.

Lemma all_expired_ext (w w' : World) (k : nat) (pending : list ptr) :
  heap w' = heap w → clock w' = clock w →
  all_expired w k pending → all_expired w' k pending.
Proof.
  intros Hh Hk. revert k.
  induction pending as [|conn rest IH]; intros k; simpl; [done|].
  intros [(c & Hc & He) Hrest]. split; [|by apply IH].
  exists c. unfold deref in *. by rewrite Hh, Hk.
Qed.

Lemma resources_ext (w w' : World) (l : list ptr) :
  heap w' = heap w → resources w' l = resources w l.
Proof.
  intros Hh.
  induction l as [|conn l IH]; simpl; [done|].
  rewrite IH.
  replace (deref w' conn) with (deref w conn); [done|].
  unfold deref. by rewrite Hh.
Qed.

Lemma resources_app (w : World) (l l' : list ptr) :
  resources w (l ++ l') = resources w l ++ resources w l'.
Proof.
  induction l as [|conn l IH]; simpl; [done|].
  destruct (deref w conn); simpl; by rewrite IH.
Qed.

(** The eviction goes through a run of expired entries at the head of
    the store, closing each, one reading of the clock apiece. *)
Lemma evict_expired_prefix (timeout : Duration) (pick : Pick) (nc : Chan.t)
    (pre suffix : list ptr) (p : ConnectionPool) (w : World) :
  timer_due timeout = false →
  Chan.buf (conns p) = pre ++ suffix →
  all_expired w (ticks w) pre →
  evict timeout pick nc (pre ++ suffix) p w
  = evict timeout pick nc suffix
      (set_conns (Chan.set_buf suffix (conns p)) p)
      (set_closes (closes w ++ resources w pre)
         (set_ticks (ticks w + length pre) w)).
Proof.
  intros Hdue. revert p w.
  induction pre as [|conn pre IH]; intros p w Hb Hall.
  - simpl in *. rewrite <- Hb, chan_eta, pool_eta, app_nil_r, Nat.add_0_r.
    by destruct w.
  - destruct Hall as [(c & Hc & He) Hrest].
    cbn [app evict]. rewrite Hdue.
    unfold pop_conns, classify, load, time_Now, DB_Close. run_monad.
    rewrite Hc, He. simpl.
    rewrite IH; [| done | by eapply all_expired_ext, Hrest].
    rewrite Hc, (resources_ext w); [|done].
    unfold set_conns, set_closes, set_ticks. simpl.
    rewrite <- app_assoc, Nat.add_succ_r. reflexivity.
Qed.

(** When every idle entry is expired, the eviction closes them all, in
    order, and the store becomes [newConns]. *)
Lemma evict_all_expired (timeout : Duration) (pick : Pick) (nc : Chan.t)
    (pending : list ptr) (p : ConnectionPool) (w : World) :
  timer_due timeout = false ∨ pending = [] →
  Chan.closed (conns p) = false →
  all_expired w (ticks w) pending →
  evict timeout pick nc pending p w
  = Returns tt (set_conns nc p)
      (set_closes (closes w ++ resources w pending)
         (set_ticks (ticks w + length pending) w)).
Proof.
  revert p w.
  induction pending as [|conn rest IH]; intros p w Hsel Hopen Hall; simpl.
  - unfold swap_conns. run_monad. rewrite Hopen.
    rewrite app_nil_r, Nat.add_0_r. by destruct w.
  - destruct Hsel as [Hdue|?]; [|done]. rewrite Hdue.
    destruct Hall as [(c & Hc & He) Hrest].
    unfold pop_conns, classify, load, time_Now, DB_Close. run_monad.
    rewrite Hc, He. simpl.
    rewrite IH; [| by left | done | by eapply all_expired_ext, Hrest].
    rewrite (resources_ext w); [|done].
    unfold set_conns, set_closes, set_ticks. simpl.
    rewrite <- app_assoc, Nat.add_succ_r. reflexivity.
Qed.

(** The time box of the scan is positive as soon as the store holds an
    entry. *)
Lemma timePerConn_pos (c : Chan.t) :
  Chan.buf c ≠ [] → timer_due (Chan.len c * timePerConn) = false.
Proof.
  intros Hne. unfold timer_due, Chan.len, timePerConn, Millisecond.
  destruct (Chan.buf c); [done|]. simpl length.
  apply Z.leb_gt. lia.
Qed.

(** The part of the eviction step that works: on an open store whose
    idle entries are all expired, it closes every one of them. *)
Lemma CloseExpiredConnections_all_expired (pick : Pick)
    (p : ConnectionPool) (w : World) :
  Chan.closed (conns p) = false →
  all_expired w (ticks w) (Chan.buf (conns p)) →
  CloseExpiredConnections pick p w
  = Returns tt (set_conns Chan.make_unbuffered p)
      (set_closes (closes w ++ resources w (Chan.buf (conns p)))
         (set_ticks (ticks w + length (Chan.buf (conns p))) w)).
Proof.
  intros Hopen Hall. unfold CloseExpiredConnections. run_monad.
  apply evict_all_expired; [|done..].
  destruct (Chan.buf (conns p)) eqn:Hb; [by right | left].
  apply timePerConn_pos. by rewrite Hb.
Qed.

(** C4 fails on the code.  Let the store hold a run of expired entries
    and then an entry that is not expired when the scan reaches it.  The
    eviction step closes the expired ones and then blocks for ever on
    the send of the live entry: the call does not return, the store is
    not replaced, and the live entry is neither kept in the store nor
    closed. *)
Theorem CloseExpiredConnections_blocks_on_live_entry (pick : Pick)
    (p : ConnectionPool) (w : World)
    (pre : list ptr) (conn : ptr) (rest : list ptr) (c : DBConn) :
  Chan.buf (conns p) = pre ++ conn :: rest →
  all_expired w (ticks w) pre →
  deref w conn = Some c →
  expired_at c (clock w (ticks w + length pre)) = false →
  CloseExpiredConnections pick p w
  = Blocks (set_conns (Chan.set_buf rest (conns p)) p)
      (set_closes (closes w ++ resources w pre)
         (set_ticks (S (ticks w + length pre)) w)).
Proof.
  intros Hb Hall Hc Hlive.
  unfold CloseExpiredConnections. run_monad.
  assert (Hdue : timer_due (Chan.len (conns p) * timePerConn) = false).
  { apply timePerConn_pos. rewrite Hb. by destruct pre. }
  rewrite Hb, evict_expired_prefix; [|done..].
  rewrite (evict_live_blocks _ _ _ _ _ c); [done | by left | done..].
Qed.

(** A store of two, an expired entry and a live one. *)
Lemma CloseExpiredConnections_blocks_on_live_entry_witness :
  CloseExpiredConnections PickReceive (test_pool_with [1; 2]%nat)
    (world_at (1011 * Second)
       [conn_at 7 (1000 * Second); conn_at 8 (1009 * Second)])
  = Blocks (test_pool_with [])
      (set_closes [7%nat]
         (set_ticks 2
            (world_at (1011 * Second)
               [conn_at 7 (1000 * Second); conn_at 8 (1009 * Second)]))).
Proof.
  apply (CloseExpiredConnections_blocks_on_live_entry PickReceive
           (test_pool_with [1; 2]%nat)
           (world_at (1011 * Second)
              [conn_at 7 (1000 * Second); conn_at 8 (1009 * Second)])
           [1%nat] 2%nat [] (conn_at 8 (1009 * Second))).
  - reflexivity.
  - simpl. split; [|done]. by exists (conn_at 7 (1000 * Second)).
  - reflexivity.
  - reflexivity.
Defined.

(** ** [MaintainMinConnections] *)

Lemma refill_spec (f : Factory) (n : nat) (p : ConnectionPool) (w : World) :
  OpenConnection p = Some f →
  Chan.closed (conns p) = false →
  Chan.len (conns p) + Z.of_nat (length (created f (opens w) n)) ≤ Chan.cap (conns p) →
  refill n p w
  = Returns tt
      (set_conns
         (Chan.set_buf
            (Chan.buf (conns p)
               ++ handed (length (heap w)) (created f (opens w) n))
            (conns p)) p)
      (set_heap (heap w ++ allocated (created f (opens w) n))
         (set_opens (opens w + n) w)).
Proof.
  revert p w.
  induction n as [|n IH]; intros p w Hf Hopen Hroom; simpl.
  - run_monad. simpl. rewrite !app_nil_r, Nat.add_0_r.
    by destruct p as [[]], w.
  - unfold call_OpenConnection. run_monad. rewrite Hf. simpl in Hroom.
    destruct (f (opens w)) as [[c|conn]|] eqn:Hk; simpl.
    + simpl in Hroom.
      unfold send_conns, Chan.send. run_monad. simpl. rewrite Hopen.
      destruct (Z.ltb_spec (Chan.len (conns p)) (Chan.cap (conns p))); [|lia].
      simpl. rewrite IH; simpl; [|done|done|..].
      * rewrite length_app. simpl.
        rewrite !Nat.add_1_r, <- !app_assoc, Nat.add_succ_r. reflexivity.
      * unfold Chan.len in *. simpl. rewrite length_app. simpl. lia.
    + simpl in Hroom.
      unfold send_conns, Chan.send. run_monad. simpl. rewrite Hopen.
      destruct (Z.ltb_spec (Chan.len (conns p)) (Chan.cap (conns p))); [|lia].
      simpl. rewrite IH; simpl; [|done|done|..].
      * rewrite <- !app_assoc, Nat.add_succ_r. reflexivity.
      * unfold Chan.len in *. simpl. rewrite length_app. simpl. lia.
    + rewrite IH; simpl; [|done..].
      rewrite Nat.add_succ_r. reflexivity.
Qed.

Lemma length_handed (h : nat) (rs : list Opened) :
  length (handed h rs) = length rs.
Proof.
  revert h. induction rs as [|[c|conn] rs IH]; intros h; simpl;
    [done | by rewrite IH..].
Qed.

(** What a factory that allocates hands back: fresh addresses, one for
    each struct. *)
Lemma allocates_created (f : Factory) (k n : nat) :
  allocates f → Forall (λ o, ∃ c, o = Allocated c) (created f k n).
Proof.
  intros Hal. revert k. induction n as [|n IH]; intros k; simpl; [constructor|].
  destruct (f k) as [o|] eqn:Hk; [|apply IH].
  constructor; [by eapply Hal | apply IH].
Qed.

Lemma handed_allocated (h : list DBConn) (rs : list Opened) :
  Forall (λ o, ∃ c, o = Allocated c) rs →
  handed (length h) rs = fresh_ptrs h (length rs)
  ∧ length (allocated rs) = length rs.
Proof.
  intros Hrs. revert h. induction Hrs as [|o rs [c ->] _ IH]; intros h; [done|].
  simpl. destruct (IH (h ++ [c])) as [IH1 IH2].
  rewrite length_app, Nat.add_1_r in IH1. rewrite IH1, IH2.
  split; [|done]. unfold fresh_ptrs. simpl.
  by rewrite length_app, Nat.add_1_r.
Qed.

(** X24: the refill on a store with room.  On an open store with room
    for the entries it obtains, the refill step returns; it calls the
    factory once for each entry missing up to [minConnections], appends
    the entry of each call that succeeds and passes over each call that
    fails; the idle count ends at the initial count plus the number of
    successes, so at least [min(minSize, initial + successes)]. *)
Theorem MaintainMinConnections_refills (f : Factory) (p : ConnectionPool) (w : World) :
  OpenConnection p = Some f →
  Chan.closed (conns p) = false →
  Chan.len (conns p) + Z.of_nat (length (created f (opens w) (missing p)))
    ≤ Chan.cap (conns p) →
  ∃ p' w',
    MaintainMinConnections p w = Returns tt p' w'
    ∧ opens w' = (opens w + missing p)%nat
    ∧ heap w' = heap w ++ allocated (created f (opens w) (missing p))
    ∧ closes w' = closes w
    ∧ Chan.buf (conns p')
      = Chan.buf (conns p)
          ++ handed (length (heap w)) (created f (opens w) (missing p))
    ∧ Chan.len (conns p')
      = Chan.len (conns p) + Z.of_nat (length (created f (opens w) (missing p)))
    ∧ Z.min (minConnections p)
        (Chan.len (conns p) + Z.of_nat (length (created f (opens w) (missing p))))
      ≤ Chan.len (conns p').
Proof.
  intros Hf Hopen Hroom.
  unfold MaintainMinConnections. run_monad. fold (missing p).
  rewrite (refill_spec f); [|done..].
  eexists _, _. split; [reflexivity|]. simpl.
  assert (Hlen :
    Chan.len (Chan.set_buf
      (Chan.buf (conns p)
         ++ handed (length (heap w)) (created f (opens w) (missing p)))
      (conns p))
    = Chan.len (conns p) + Z.of_nat (length (created f (opens w) (missing p)))).
  { unfold Chan.len. simpl. rewrite length_app, length_handed. lia. }
  repeat split; [done | lia].
Qed.

(** [TestMaintainMinConnections]: five calls on the empty test pool,
    with a factory that never fails. *)
Lemma MaintainMinConnections_refills_witness :
  ∃ p' w',
    MaintainMinConnections (set_OpenConnection (Some fresh_conn) test_pool)
      (world_at 0 []) = Returns tt p' w'
    ∧ opens w'
      = (opens (world_at 0 [])
         + missing (set_OpenConnection (Some fresh_conn) test_pool))%nat
    ∧ heap w'
      = heap (world_at 0 [])
          ++ allocated (created fresh_conn (opens (world_at 0 []))
               (missing (set_OpenConnection (Some fresh_conn) test_pool)))
    ∧ closes w' = closes (world_at 0 [])
    ∧ Chan.buf (conns p')
      = Chan.buf (conns (set_OpenConnection (Some fresh_conn) test_pool))
          ++ handed (length (heap (world_at 0 [])))
               (created fresh_conn (opens (world_at 0 []))
                  (missing (set_OpenConnection (Some fresh_conn) test_pool)))
    ∧ Chan.len (conns p')
      = Chan.len (conns (set_OpenConnection (Some fresh_conn) test_pool))
        + Z.of_nat (length (created fresh_conn (opens (world_at 0 []))
             (missing (set_OpenConnection (Some fresh_conn) test_pool))))
    ∧ Z.min (minConnections (set_OpenConnection (Some fresh_conn) test_pool))
        (Chan.len (conns (set_OpenConnection (Some fresh_conn) test_pool))
         + Z.of_nat (length (created fresh_conn (opens (world_at 0 []))
             (missing (set_OpenConnection (Some fresh_conn) test_pool)))))
      ≤ Chan.len (conns p').
Proof.
  apply (MaintainMinConnections_refills fresh_conn
           (set_OpenConnection (Some fresh_conn) test_pool) (world_at 0 [])).
  - reflexivity.
  - reflexivity.
  - vm_compute. discriminate.
Defined.

Example MaintainMinConnections_test :
  MaintainMinConnections (set_OpenConnection (Some fresh_conn) test_pool)
    (world_at 0 [])
  = Returns tt
      (set_OpenConnection (Some fresh_conn) (test_pool_with [1; 2; 3; 4; 5]%nat))
      (set_opens 5
         (set_heap
            [conn_at 0 (1000 * Second); conn_at 1 (1000 * Second);
             conn_at 2 (1000 * Second); conn_at 3 (1000 * Second);
             conn_at 4 (1000 * Second)]
            (world_at 0 []))).
Proof. reflexivity. Qed.

(** A failed call is passed over: with a factory whose calls number 1
    and 3 fail, five calls leave three entries. *)
Example MaintainMinConnections_flaky :
  MaintainMinConnections (set_OpenConnection (Some flaky_conn) test_pool)
    (world_at 0 [])
  = Returns tt
      (set_OpenConnection (Some flaky_conn) (test_pool_with [1; 2; 3]%nat))
      (set_opens 5
         (set_heap
            [conn_at 0 (1000 * Second); conn_at 2 (1000 * Second);
             conn_at 4 (1000 * Second)]
            (world_at 0 []))).
Proof. reflexivity. Qed.

(** The refill on an unbuffered store: the first factory call that
    succeeds is followed by a send that blocks. *)
Lemma refill_blocks_unbuffered (f : Factory) (k n : nat) (o : Opened)
    (p : ConnectionPool) (w : World) :
  OpenConnection p = Some f →
  conns p = Chan.make_unbuffered →
  (k < n)%nat →
  created f (opens w) k = [] →
  f (opens w + k)%nat = Some o →
  refill n p w
  = Blocks p (set_heap (heap w ++ allocated [o]) (set_opens (S (opens w + k)) w)).
Proof.
  intros Hf Hch. revert n w.
  induction k as [|k IH]; intros n w Hlt Hnone Hk.
  - destruct n as [|n]; [lia|]. rewrite Nat.add_0_r in *. simpl.
    unfold call_OpenConnection, send_conns, Chan.send. run_monad.
    rewrite Hf. simpl. rewrite Hk.
    destruct o as [c|conn]; simpl; rewrite Hch; simpl; [done|].
    rewrite app_nil_r. by destruct w.
  - destruct n as [|n]; [lia|]. simpl in Hnone.
    destruct (f (opens w)) as [o'|] eqn:Hk0; [done|]. simpl.
    unfold call_OpenConnection. run_monad. rewrite Hf. simpl. rewrite Hk0.
    rewrite (IH n); simpl; [|lia|done|by rewrite <- Nat.add_succ_r].
    by rewrite Nat.add_succ_r.
Qed.

(** C5: the refill of a maintenance tick does not restore the floor.
    The eviction step that runs before it always leaves an unbuffered
    store (C1).  On that store, with entries missing up to
    [minConnections], the refill calls the factory until a call
    succeeds and then blocks for ever on sending the entry: the entry is
    not inserted, the tick does not end, and the idle count stays [0],
    below [min(minSize, 0 + 1)].  (An unbuffered store has length [0] at
    all times, also when a waiting [Acquire] of another goroutine takes
    the entry.) *)
Theorem MaintainMinConnections_blocks_unbuffered (f : Factory) (k : nat) (o : Opened)
    (p : ConnectionPool) (w : World) :
  OpenConnection p = Some f →
  conns p = Chan.make_unbuffered →
  (k < missing p)%nat →
  created f (opens w) k = [] →
  f (opens w + k)%nat = Some o →
  MaintainMinConnections p w
  = Blocks p (set_heap (heap w ++ allocated [o]) (set_opens (S (opens w + k)) w))
  ∧ Chan.len (conns p) = 0
  ∧ Chan.len (conns p) < Z.min (minConnections p) (Chan.len (conns p) + 1).
Proof.
  intros Hf Hch Hlt Hnone Hk.
  split; [|split].
  - unfold MaintainMinConnections. run_monad. fold (missing p).
    by apply (refill_blocks_unbuffered f k).
  - by rewrite Hch.
  - unfold missing in Hlt. rewrite Hch in *. unfold Chan.len in *. simpl in *. lia.
Qed.

(** The tick that follows [Open(max=3, min=1)] once all three entries
    are past their time-out: the eviction closes them and leaves the
    unbuffered store, and the refill blocks on the entry of its one
    factory call (call number 3 of the process). *)
Lemma MaintainMinConnections_blocks_unbuffered_witness :
  CloseExpiredConnections PickReceive opened_pool (opened_world (1011 * Second))
  = Returns tt (set_conns Chan.make_unbuffered opened_pool)
      (set_closes [0; 1; 2]%nat (set_ticks 3 (opened_world (1011 * Second))))
  ∧ MaintainMinConnections (set_conns Chan.make_unbuffered opened_pool)
      (set_closes [0; 1; 2]%nat (set_ticks 3 (opened_world (1011 * Second))))
    = Blocks (set_conns Chan.make_unbuffered opened_pool)
        (set_heap
           (heap (set_closes [0; 1; 2]%nat (set_ticks 3 (opened_world (1011 * Second))))
              ++ allocated [Allocated (conn_at 3 (1000 * Second))])
           (set_opens
              (S (opens (set_closes [0; 1; 2]%nat
                           (set_ticks 3 (opened_world (1011 * Second)))) + 0))
              (set_closes [0; 1; 2]%nat (set_ticks 3 (opened_world (1011 * Second))))))
  ∧ Chan.len (conns (set_conns Chan.make_unbuffered opened_pool)) = 0
  ∧ Chan.len (conns (set_conns Chan.make_unbuffered opened_pool))
    < Z.min (minConnections (set_conns Chan.make_unbuffered opened_pool))
        (Chan.len (conns (set_conns Chan.make_unbuffered opened_pool)) + 1).
Proof.
  split; [reflexivity|].
  apply (MaintainMinConnections_blocks_unbuffered fresh_conn 0
           (Allocated (conn_at 3 (1000 * Second)))
           (set_conns Chan.make_unbuffered opened_pool)
           (set_closes [0; 1; 2]%nat (set_ticks 3 (opened_world (1011 * Second))))).
  - reflexivity.
  - reflexivity.
  - vm_compute. lia.
  - reflexivity.
  - reflexivity.
Defined.

(** The same tick as one call of [Cleaner]. *)
Example Cleaner_refill_blocks :
  Cleaner PickReceive opened_pool (opened_world (1011 * Second))
  = Blocks (set_conns Chan.make_unbuffered opened_pool)
      (set_heap
         (heap (opened_world (1011 * Second)) ++ [conn_at 3 (1000 * Second)])
         (set_opens 4
            (set_closes [0; 1; 2]%nat
               (set_ticks 3 (opened_world (1011 * Second))))))
  ∧ missing (set_conns Chan.make_unbuffered opened_pool) = 1%nat
  ∧ created fresh_conn 3 1 = [Allocated (conn_at 3 (1000 * Second))]
  ∧ ¬ (Z.min (minConnections opened_pool) (0 + 1)
       ≤ Chan.len (conns (set_conns Chan.make_unbuffered opened_pool))).
Proof. repeat split. vm_compute. by intros H. Qed.

(** A minimum above the capacity, which [New] accepts, has the same
    effect: [New(2, 5, -1)] takes two entries and blocks on the third. *)
Example MaintainMinConnections_min_above_max :
  (λ p, MaintainMinConnections (set_OpenConnection (Some fresh_conn) p) (world_at 0 []))
    <$> New 2 5 (-1)
  = Some (Blocks
            {| conns := Chan.mk [1; 2]%nat 2 false;
               maxConnections := 2; minConnections := 5; waitTimeout := -1;
               OpenConnection := Some fresh_conn; cleanupTicker := None |}
            (set_opens 3
               (set_heap
                  [conn_at 0 (1000 * Second); conn_at 1 (1000 * Second);
                   conn_at 2 (1000 * Second)]
                  (world_at 0 [])))).
Proof. reflexivity. Qed.

(** ** [Close] *)

Lemma valid_ext (w w' : World) (l : list ptr) :
  heap w' = heap w → valid w l → valid w' l.
Proof.
  intros Hh Hv. unfold valid, deref in *.
  eapply Forall_impl; [exact Hv|].
  intros [|i]; [done|]. by rewrite Hh.
Qed.

(** The range loop of [Close] closes the resource of every buffered
    entry, in order, and empties the store; it ends iff the channel is
    closed. *)
Lemma drain_spec (pending : list ptr) (p : ConnectionPool) (w : World) :
  valid w pending →
  drain pending p w
  = (if Chan.closed (conns p) then Returns tt else Blocks)
      (set_conns (Chan.set_buf (if pending is [] then Chan.buf (conns p) else [])
                    (conns p)) p)
      (set_closes (closes w ++ resources w pending) w).
Proof.
  revert p w.
  induction pending as [|conn rest IH]; intros p w Hv; simpl.
  - run_monad. rewrite app_nil_r, chan_eta, pool_eta.
    destruct (Chan.closed (conns p)); by destruct w.
  - apply Forall_cons in Hv as [[c Hc] Hv].
    unfold pop_conns, load, DB_Close. run_monad. simpl. rewrite Hc.
    rewrite IH; [|by eapply valid_ext, Hv]. simpl.
    rewrite (resources_ext w); [|done].
    rewrite <- app_assoc. simpl.
    destruct (Chan.closed (conns p)), rest; reflexivity.
Qed.

(** When the range loop ends, the store is closed and empty. *)
Lemma drain_Returns (pending : list ptr) (p p' : ConnectionPool) (w w' : World) :
  Chan.buf (conns p) = pending →
  drain pending p w = Returns tt p' w' →
  Chan.buf (conns p') = [] ∧ Chan.closed (conns p') = true.
Proof.
  revert p w.
  induction pending as [|conn rest IH]; intros p w Hb; simpl.
  - run_monad. destruct (Chan.closed (conns p)) eqn:Hc; [|done].
    intros H; inversion H; by subst.
  - unfold pop_conns, load, DB_Close. run_monad. simpl.
    destruct (deref w conn); [|done]. by apply IH.
Qed.

(** The first [Close] of the process, on a pool that [Open] has started
    and whose idle entries are valid: it returns, having stopped the
    ticker, closed the store and closed the resource of every idle
    entry, in order. *)
Lemma Close_first (p : ConnectionPool) (w : World) :
  is_Some (cleanupTicker p) →
  once_done w = false →
  Chan.closed (conns p) = false →
  valid w (Chan.buf (conns p)) →
  Close p w
  = Returns tt (shut p)
      (set_closes (closes w ++ resources w (Chan.buf (conns p)))
         (set_once_done true w)).
Proof.
  intros [t Ht] Honce Hopen Hv.
  unfold Close, Ticker_Stop, once_Do, close_conns, Chan.close. run_monad.
  rewrite Ht. simpl. rewrite Honce. simpl. rewrite Hopen. simpl.
  rewrite drain_spec; [|by eapply valid_ext, Hv]. simpl.
  rewrite (resources_ext w (set_once_done true w)); [|done].
  by destruct (Chan.buf (conns p)).
Qed.

(** [Close] on a pool that is already closed and drained: nothing is
    closed again. *)
Lemma Close_again (p : ConnectionPool) (w : World) :
  is_Some (cleanupTicker p) →
  once_done w = true →
  Chan.closed (conns p) = true →
  Chan.buf (conns p) = [] →
  Close p w = Returns tt (set_cleanupTicker (Some Stopped) p) w.
Proof.
  intros [t Ht] Honce Hclosed Hb.
  unfold Close, Ticker_Stop, once_Do. run_monad.
  rewrite Ht. simpl. rewrite Honce. simpl. rewrite Hb. simpl.
  run_monad. simpl. by rewrite Hclosed.
Qed.

(** On one pool, the first to be closed in the process, [Close] of
    [dbpool] is idempotent: the first call closes each idle entry once,
    and any number of further calls return without closing anything or
    changing the pool. *)
Lemma Close_idempotent (n : nat) (p : ConnectionPool) (w : World) :
  is_Some (cleanupTicker p) →
  once_done w = false →
  Chan.closed (conns p) = false →
  valid w (Chan.buf (conns p)) →
  Close p w
  = Returns tt (shut p)
      (set_closes (closes w ++ resources w (Chan.buf (conns p)))
         (set_once_done true w))
  ∧ Nat.iter n (λ o, match o with
                     | Returns _ p' w' => Close p' w'
                     | _ => o
                     end)
      (Close p w)
    = Close p w.
Proof.
  intros Ht Honce Hopen Hv.
  rewrite Close_first by done. split; [done|].
  induction n as [|n IH]; [done|]. simpl. rewrite IH.
  by rewrite Close_again.
Qed.

(** Before [Open], the ticker is nil and [Close] panics. *)
Example Close_before_Open :
  Close scenario_pool (world_at 0 []) = Panics NilDereference scenario_pool (world_at 0 []).
Proof. reflexivity. Qed.

(** When [Close] returns, the store is closed and empty. *)
Lemma Close_Returns (p p' : ConnectionPool) (w w' : World) :
  Close p w = Returns tt p' w' →
  Chan.buf (conns p') = [] ∧ Chan.closed (conns p') = true.
Proof.
  unfold Close, Ticker_Stop, once_Do, close_conns. run_monad.
  destruct (cleanupTicker p); [|done]. simpl.
  destruct (once_done w); simpl.
  - by apply drain_Returns.
  - destruct (Chan.close (conns p)); [|done]. by apply drain_Returns.
Qed.

(** C7 fails on the code.  After a [Close] that has returned, the
    receive case of [Acquire] is ready at once with [nil], and the
    expiry check dereferences it: unless the timer case is ready too and
    is the one taken, [Acquire] panics instead of returning an error. *)
Theorem Acquire_after_Close_panics (pick : Pick) (p p' : ConnectionPool)
    (w w' : World) :
  Close p w = Returns tt p' w' →
  timer_due (waitTimeout p') = false ∨ pick = PickReceive →
  Acquire pick p' w' = Panics NilDereference p' w'.
Proof.
  intros [Hb Hc]%Close_Returns Hsel. by apply Acquire_closed.
Qed.

(** The pool of the scenario, with its wait of five seconds. *)
Lemma Acquire_after_Close_panics_witness :
  Close opened_pool (opened_world (1005 * Second))
  = Returns tt (shut opened_pool)
      (set_closes [0; 1; 2]%nat (set_once_done true (opened_world (1005 * Second))))
  ∧ Acquire PickTimer (shut opened_pool)
      (set_closes [0; 1; 2]%nat (set_once_done true (opened_world (1005 * Second))))
    = Panics NilDereference (shut opened_pool)
        (set_closes [0; 1; 2]%nat (set_once_done true (opened_world (1005 * Second)))).
Proof.
  split; [reflexivity|].
  apply (Acquire_after_Close_panics PickTimer opened_pool (shut opened_pool)
           (opened_world (1005 * Second))
           (set_closes [0; 1; 2]%nat
              (set_once_done true (opened_world (1005 * Second))))).
  - reflexivity.
  - left. reflexivity.
Defined.

(** *** [Close] of [redispool] *)

(** The first [Close] on an open store of valid entries closes the
    store and the resource of every idle entry. *)
Lemma Redis_Close_first (p : ConnectionPool) (w : World) :
  Chan.closed (conns p) = false →
  valid w (Chan.buf (conns p)) →
  Redis.Close p w
  = Returns tt (set_conns (Chan.mk [] (Chan.cap (conns p)) true) p)
      (set_closes (closes w ++ resources w (Chan.buf (conns p))) w).
Proof.
  intros Hopen Hv.
  unfold Redis.Close, close_conns, Chan.close. run_monad.
  rewrite Hopen. simpl. rewrite drain_spec; [|done]. simpl.
  by destruct (Chan.buf (conns p)).
Qed.

(** C6 fails on [redispool].  Its [Close] calls [close(pool.conns)]
    unguarded: after a [Close] that has returned, the next [Close] on
    the same pool panics (close of closed channel). *)
Theorem Redis_Close_twice_panics (p p' : ConnectionPool) (w w' : World) :
  Redis.Close p w = Returns tt p' w' →
  Redis.Close p' w' = Panics CloseOfClosedChannel p' w'.
Proof.
  unfold Redis.Close, close_conns. run_monad.
  destruct (Chan.close (conns p)) as [c|] eqn:Hc; [|done]. simpl.
  intros [_ Hclosed]%drain_Returns; [|done].
  unfold Chan.close. by rewrite Hclosed.
Qed.

(** On the pool of the scenario the first [Close] closes the three idle
    resources and returns; the second panics. *)
Lemma Redis_Close_twice_panics_witness :
  Redis.Close opened_pool (opened_world (1005 * Second))
  = Returns tt (set_conns (Chan.mk [] 3 true) opened_pool)
      (set_closes [0; 1; 2]%nat (opened_world (1005 * Second)))
  ∧ Redis.Close (set_conns (Chan.mk [] 3 true) opened_pool)
      (set_closes [0; 1; 2]%nat (opened_world (1005 * Second)))
  = Panics CloseOfClosedChannel (set_conns (Chan.mk [] 3 true) opened_pool)
      (set_closes [0; 1; 2]%nat (opened_world (1005 * Second))).
Proof.
  split; [reflexivity|].
  apply (Redis_Close_twice_panics opened_pool
           (set_conns (Chan.mk [] 3 true) opened_pool)
           (opened_world (1005 * Second))
           (set_closes [0; 1; 2]%nat (opened_world (1005 * Second)))).
  reflexivity.
Defined.

(** *** The package-level [once] of [dbpool] *)

(** While the channel stays open the range loop cannot end. *)
Lemma drain_open (pending : list ptr) (p p' : ConnectionPool) (w w' : World) :
  Chan.closed (conns p) = false →
  drain pending p w ≠ Returns tt p' w'.
Proof.
  revert p w.
  induction pending as [|conn rest IH]; intros p w Hopen; simpl.
  - run_monad. by rewrite Hopen.
  - unfold pop_conns, load, DB_Close. run_monad. simpl.
    destruct (deref w conn); [|done]. by apply IH.
Qed.

(** Once some pool of the process has been closed, [Close] on a pool
    whose store is still open never returns, whatever the store holds. *)
Lemma Close_once_spent (p p' : ConnectionPool) (w w' : World) :
  once_done w = true →
  Chan.closed (conns p) = false →
  Close p w ≠ Returns tt p' w'.
Proof.
  intros Honce Hopen.
  unfold Close, Ticker_Stop, once_Do. run_monad.
  destruct (cleanupTicker p); [|done]. simpl. rewrite Honce. simpl.
  by apply drain_open.
Qed.

(** C9 fails on the code.  Once [once] has fired for some pool of the
    process, [Close] on another opened pool stops its ticker and closes
    its idle resources, but skips [close(p.conns)]: the store stays open
    and the range loop blocks for ever.  ([Close_first] is what the same
    call does when no other pool has been closed.) *)
Theorem Close_after_other_pool_blocks (p : ConnectionPool) (w : World) :
  is_Some (cleanupTicker p) →
  once_done w = true →
  Chan.closed (conns p) = false →
  valid w (Chan.buf (conns p)) →
  Close p w
  = Blocks
      (set_cleanupTicker (Some Stopped) (set_conns (Chan.set_buf [] (conns p)) p))
      (set_closes (closes w ++ resources w (Chan.buf (conns p))) w).
Proof.
  intros [t Ht] Honce Hopen Hv.
  unfold Close, Ticker_Stop, once_Do. run_monad.
  rewrite Ht. simpl. rewrite Honce. simpl.
  rewrite drain_spec; [|done]. simpl. rewrite Hopen.
  by destruct (Chan.buf (conns p)).
Qed.

(** Two opened pools in one process: [Close] on the first returns;
    [Close] on the second then blocks with its store open, whereas
    without the first [Close] it closes the store and returns. *)
Lemma Close_after_other_pool_blocks_witness :
  Close opened_pool (two_pools_world (1005 * Second))
  = Returns tt (shut opened_pool)
      (set_closes [0; 1; 2]%nat
         (set_once_done true (two_pools_world (1005 * Second))))
  ∧ Close second_pool (two_pools_world (1005 * Second))
    = Returns tt (shut second_pool)
        (set_closes [3; 4]%nat
           (set_once_done true (two_pools_world (1005 * Second))))
  ∧ Close second_pool
      (set_closes [0; 1; 2]%nat
         (set_once_done true (two_pools_world (1005 * Second))))
    = Blocks
        (set_cleanupTicker (Some Stopped)
           (set_conns (Chan.set_buf [] (conns second_pool)) second_pool))
        (set_closes
           (closes
              (set_closes [0; 1; 2]%nat
                 (set_once_done true (two_pools_world (1005 * Second))))
            ++ resources
                 (set_closes [0; 1; 2]%nat
                    (set_once_done true (two_pools_world (1005 * Second))))
                 (Chan.buf (conns second_pool)))
           (set_closes [0; 1; 2]%nat
              (set_once_done true (two_pools_world (1005 * Second))))).
Proof.
  split; [reflexivity|]. split; [reflexivity|].
  apply (Close_after_other_pool_blocks second_pool
           (set_closes [0; 1; 2]%nat
              (set_once_done true (two_pools_world (1005 * Second))))).
  - by eexists.
  - reflexivity.
  - reflexivity.
  - unfold valid. simpl. repeat constructor; by eexists.
Defined.

(** The state in which the second pool is left. *)
Example Close_second_pool :
  Close second_pool
    (set_closes [0; 1; 2]%nat
       (set_once_done true (two_pools_world (1005 * Second))))
  = Blocks
      {| conns := Chan.mk [] 2 false;
         maxConnections := 2; minConnections := 1;
         waitTimeout := 5 * Second;
         OpenConnection := Some fresh_conn; cleanupTicker := Some Stopped |}
      (set_closes [0; 1; 2; 3; 4]%nat
         (set_once_done true (two_pools_world (1005 * Second)))).
Proof. reflexivity. Qed.

(** ** Callers and hand-outs *)

Example scenario_run :
  held <$> run [CallAcquire 1 PickReceive; CallAcquire 2 PickReceive;
                CallRelease 1 1; CallAcquire 3 PickReceive]
             scenario_start
  = Some [(3, 3); (2, 2)]%nat.
Proof. reflexivity. Qed.

(** What a returning [Acquire] has done to the store: nothing, on a
    time-out; otherwise it took the head, and handed it out unless it
    was expired. *)
Lemma Acquire_inv (pick : Pick) (p p' : ConnectionPool) (w w' : World)
    (conn : ptr) (e : option error) :
  Acquire pick p w = Returns (conn, e) p' w' →
  (e = Some ErrTimeoutWaiting ∧ Chan.buf (conns p') = Chan.buf (conns p))
  ∨ (∃ x rest,
       Chan.buf (conns p) = x :: rest
       ∧ Chan.buf (conns p') = rest
       ∧ (e = None ∧ conn = x ∨ e = Some ErrConnectionExpired)).
Proof.
  unfold Acquire, select_recv, isConnectionExpired, load, time_Now, DB_Close,
    Chan.recv.
  run_monad.
  destruct (Chan.buf (conns p)) as [|x rest] eqn:Hb.
  - destruct (Chan.closed (conns p)).
    + destruct (timer_due (waitTimeout p)), pick; simpl; try done.
      intros H; inversion H; subst. left. by rewrite Hb.
    + intros H; inversion H; subst. left. by rewrite Hb.
  - assert (Hrecv :
      match deref w x with
      | Some c =>
          if expired_at c (clock w (ticks w))
          then Returns (nil, Some ErrConnectionExpired)
                 (set_conns (Chan.set_buf rest (conns p)) p)
                 (set_closes (closes w ++ [DB c]) (set_ticks (S (ticks w)) w))
          else Returns (x, None)
                 (set_conns (Chan.set_buf rest (conns p)) p)
                 (set_ticks (S (ticks w)) w)
      | None => Panics NilDereference (set_conns (Chan.set_buf rest (conns p)) p) w
      end = Returns (conn, e) p' w' →
      ∃ x0 rest0, x :: rest = x0 :: rest0 ∧ Chan.buf (conns p') = rest0
        ∧ (e = None ∧ conn = x0 ∨ e = Some ErrConnectionExpired)).
    { destruct (deref w x) as [c|]; [|done].
      destruct (expired_at c (clock w (ticks w))).
      all: intros H; inversion H; subst.
      all: eexists _, _; split; [reflexivity|]; simpl; auto. }
    destruct (timer_due (waitTimeout p)), pick; simpl.
    2: { intros H; inversion H; subst. left. by rewrite Hb. }
    all: intros H; right; apply Hrecv; revert H.
    all: destruct (deref w x) as [c|] eqn:Hc; [|done].
    all: destruct (expired_at c (clock w (ticks w))); [|done].
    all: change (deref (set_ticks (S (ticks w)) w) x) with (deref w x).
    all: by rewrite Hc.
Qed.

(** A returning [Release] has put the entry at the back of the store. *)
Lemma Release_inv (conn : ptr) (p p' : ConnectionPool) (w w' : World) :
  Release conn p w = Returns tt p' w' →
  Chan.buf (conns p') = Chan.buf (conns p) ++ [conn].
Proof.
  unfold Release, time_Now, load, store, send_conns, Chan.send. run_monad.
  simpl.
  change (deref (set_ticks (S (ticks w)) w) conn) with (deref w conn).
  destruct (deref w conn) as [c|]; [|done].
  destruct conn as [|i]; [done|]. simpl.
  destruct (decide (i < length (heap w))%nat); [|done]. simpl.
  destruct (Chan.closed (conns p)); [done|].
  destruct (Chan.len (conns p) <? Chan.cap (conns p)); [|done].
  intros H; by inversion H.
Qed.

Lemma give_back_perm (h : caller * ptr) (l : list (caller * ptr)) :
  h ∈ l → l ≡ₚ h :: give_back h l.
Proof.
  induction l as [|x l IH]; [by intros ?%elem_of_nil|].
  intros Hin. simpl. destruct (decide (x = h)) as [->|Hne]; [done|].
  apply elem_of_cons in Hin as [->|Hin]; [done|].
  rewrite (IH Hin) at 1. apply Permutation_swap.
Qed.

Lemma step_exclusive (cfg cfg' : Config) (call : Call) :
  exclusive cfg →
  owns cfg call = true →
  step cfg call = Some cfg' →
  exclusive cfg'.
Proof.
  unfold exclusive. intros Hex Hown.
  destruct call as [who pick | who conn]; simpl.
  - destruct (Acquire pick (cpool cfg) (cworld cfg))
      as [[conn e] p w | |] eqn:Hacq; [|done..].
    apply Acquire_inv in Hacq as [[-> Hsame] | (x & rest & Hb & Hb' & Hres)].
    + intros [= <-]; simpl. by rewrite Hsame.
    + rewrite Hb in Hex. simpl in Hex.
      destruct Hres as [[-> ->] | ->].
      all: intros [= <-]; simpl; rewrite Hb'.
      * by rewrite <- Permutation_middle.
      * by apply NoDup_cons in Hex as [_ ?].
  - destruct (Release conn (cpool cfg) (cworld cfg))
      as [[] p w | |] eqn:Hrel; [|done..].
    apply Release_inv in Hrel.
    intros [= <-]; simpl. rewrite Hrel.
    simpl in Hown. apply bool_decide_eq_true in Hown.
    rewrite (give_back_perm _ _ Hown) in Hex. simpl in Hex.
    by rewrite <- app_assoc.
Qed.

(** C2, as the code supports it.  Start from a state in which no entry
    is both idle and held, or idle twice, or held twice.  After any run
    of [Acquire] and [Release] calls in which every [Release] is made by
    a caller that holds the released entry, this is still so: in
    particular no entry is held by two callers, and none has been
    returned by two [Acquire] calls without a [Release] in between. *)
Theorem honest_run_exclusive (calls : list Call) (cfg cfg' : Config) :
  exclusive cfg →
  honest calls cfg = true →
  run calls cfg = Some cfg' →
  exclusive cfg'
  ∧ NoDup (held cfg').*2
  ∧ ∀ who who' conn,
      (who, conn) ∈ held cfg' → (who', conn) ∈ held cfg' → who = who'.
Proof.
  intros Hex Hhon Hrun.
  assert (Hex' : exclusive cfg').
  { revert cfg Hex Hhon Hrun.
    induction calls as [|call rest IH]; intros cfg Hex Hhon; simpl.
    - intros H; by inversion H; subst.
    - simpl in Hhon. apply andb_true_iff in Hhon as [Hown Hhon].
      destruct (step cfg call) as [cfg1|] eqn:Hstep; [|done].
      apply IH; [|done]. by eapply step_exclusive. }
  split; [done|].
  assert (Hnd : NoDup (held cfg').*2).
  { unfold exclusive in Hex'. by apply NoDup_app in Hex' as (_ & _ & ?). }
  split; [done|].
  intros who who' conn Hin Hin'.
  apply list_elem_of_lookup in Hin as [i Hi].
  apply list_elem_of_lookup in Hin' as [j Hj].
  assert (i = j) as ->.
  { eapply NoDup_lookup; [exact Hnd|..].
    - by rewrite list_lookup_fmap, Hi.
    - by rewrite list_lookup_fmap, Hj. }
  congruence.
Qed.

(** An honest run of the scenario: caller 1 acquires entry [1] and
    releases it; callers 2 and 3 acquire what is there. *)
Lemma honest_run_exclusive_witness :
  exclusive
    (mkConfig
       (set_conns (Chan.mk [] 3 false) opened_pool)
       (set_ticks 5 (set_heap
          [conn_at 0 (1005 * Second); conn_at 1 (1000 * Second);
           conn_at 2 (1000 * Second)] (opened_world (1005 * Second))))
       [(3, 1); (3, 3); (2, 2)]%nat)
  ∧ NoDup [1; 3; 2]%nat
  ∧ ∀ who who' conn,
      (who, conn) ∈ [(3, 1); (3, 3); (2, 2)]%nat →
      (who', conn) ∈ [(3, 1); (3, 3); (2, 2)]%nat →
      who = who'.
Proof.
  apply (honest_run_exclusive
           [CallAcquire 1 PickReceive; CallAcquire 2 PickReceive;
            CallRelease 1 1; CallAcquire 3 PickReceive; CallAcquire 3 PickReceive]
           scenario_start).
  - unfold exclusive. simpl. apply (bool_decide_unpack _). reflexivity.
  - reflexivity.
  - reflexivity.
Defined.

(** C2 fails as stated.  After [Open(max=3, min=1)], caller 1 acquires
    entries [1] and [2] and releases entry [1] twice; the store takes
    both.  Callers 2 and 3 then each acquire: caller 2 gets entries [3]
    and [1], caller 3 gets entry [1] too, and both hold it. *)
Lemma double_Release_double_handout :
  held <$> run [CallAcquire 1 PickReceive; CallAcquire 1 PickReceive;
                CallRelease 1 1; CallRelease 1 1;
                CallAcquire 2 PickReceive; CallAcquire 2 PickReceive;
                CallAcquire 3 PickReceive]
             scenario_start
  = Some [(3, 1); (2, 1); (2, 3); (1, 2)]%nat
  ∧ exclusive scenario_start
  ∧ ¬ NoDup ([(3, 1); (2, 1); (2, 3); (1, 2)]%nat).*2.
Proof.
  split; [reflexivity|]. split.
  - unfold exclusive. simpl. apply (bool_decide_unpack _). reflexivity.
  - simpl. intros Hnd. apply NoDup_cons in Hnd as [Hnot _].
    apply Hnot. by left.
Qed.

(** The same with a [Release] of an entry that the releasing caller was
    never handed: caller 1 holds entry [1], caller 2 releases it, and
    caller 3 ends up holding it beside caller 1. *)
Example foreign_Release_double_handout :
  held <$> run [CallAcquire 1 PickReceive; CallRelease 2 1;
                CallAcquire 3 PickReceive; CallAcquire 3 PickReceive;
                CallAcquire 3 PickReceive]
             scenario_start
  = Some [(3, 1); (3, 3); (3, 2); (1, 1)]%nat.
Proof. reflexivity. Qed.

(** * Further properties of the code *)

(** ** [Open] *)

Lemma created_succeeds_length (f : Factory) (k n : nat) :
  succeeds f k n → length (created f k n) = n.
Proof.
  revert k. induction n as [|n IH]; intros k Hs; simpl; [done|].
  destruct (Hs O) as [c Hc]; [lia|]. rewrite Nat.add_0_r in Hc. rewrite Hc.
  simpl. f_equal. apply IH. intros i Hi.
  replace (S k + i)%nat with (k + S i)%nat by lia. apply Hs. lia.
Qed.

Lemma succeeds_S (f : Factory) (k n : nat) :
  succeeds f k (S n) → is_Some (f k) ∧ succeeds f (S k) n.
Proof.
  intros Hs. split.
  - specialize (Hs O). rewrite Nat.add_0_r in Hs. apply Hs. lia.
  - intros i Hi. replace (S k + i)%nat with (k + S i)%nat by lia. apply Hs. lia.
Qed.

(** The loop of [Open] while the factory succeeds and the store has
    room. *)
Lemma open_loop_succeeds (f : Factory) (n : nat) (p : ConnectionPool) (w : World) :
  OpenConnection p = Some f →
  Chan.closed (conns p) = false →
  Chan.len (conns p) + Z.of_nat n ≤ Chan.cap (conns p) →
  succeeds f (opens w) n →
  open_loop n p w
  = Returns None
      (set_conns
         (Chan.set_buf
            (Chan.buf (conns p) ++ handed (length (heap w)) (created f (opens w) n))
            (conns p)) p)
      (set_heap (heap w ++ allocated (created f (opens w) n))
         (set_opens (opens w + n) w)).
Proof.
  revert p w.
  induction n as [|n IH]; intros p w Hf Hopen Hroom Hs; simpl.
  - run_monad. simpl. rewrite !app_nil_r, Nat.add_0_r.
    by destruct p as [[]], w.
  - apply succeeds_S in Hs as [[o Hc] Hs].
    unfold call_OpenConnection. run_monad. rewrite Hf. simpl. rewrite Hc.
    destruct o as [c|conn]; simpl.
    all: unfold send_conns, Chan.send; run_monad; simpl; rewrite Hopen.
    all: destruct (Z.ltb_spec (Chan.len (conns p)) (Chan.cap (conns p))); [|lia].
    all: simpl; rewrite IH; simpl; [|done|done|..|done].
    + rewrite length_app. simpl.
      rewrite !Nat.add_1_r, <- !app_assoc, Nat.add_succ_r. reflexivity.
    + unfold Chan.len in *. simpl. rewrite length_app. simpl. lia.
    + rewrite <- !app_assoc, Nat.add_succ_r. reflexivity.
    + unfold Chan.len in *. simpl. rewrite length_app. simpl. lia.
Qed.

(** The loop of [Open] up to the first call of the factory that fails,
    the [k]-th from now. *)
Lemma open_loop_fails (f : Factory) (k n : nat) (p : ConnectionPool) (w : World) :
  OpenConnection p = Some f →
  Chan.closed (conns p) = false →
  Chan.len (conns p) + Z.of_nat k ≤ Chan.cap (conns p) →
  (k < n)%nat →
  succeeds f (opens w) k →
  f (opens w + k)%nat = None →
  open_loop n p w
  = Returns (Some ErrOpenConnection)
      (set_conns
         (Chan.set_buf
            (Chan.buf (conns p) ++ handed (length (heap w)) (created f (opens w) k))
            (conns p)) p)
      (set_heap (heap w ++ allocated (created f (opens w) k))
         (set_opens (S (opens w + k)) w)).
Proof.
  revert n p w.
  induction k as [|k IH]; intros n p w Hf Hopen Hroom Hlt Hs Hfail.
  - destruct n as [|n]; [lia|]. simpl.
    unfold call_OpenConnection. run_monad. rewrite Hf. simpl.
    rewrite Nat.add_0_r in Hfail. rewrite Hfail. simpl.
    rewrite !app_nil_r, Nat.add_0_r.
    by destruct p as [[]], w.
  - destruct n as [|n]; [lia|]. simpl.
    apply succeeds_S in Hs as [[o Hc] Hs].
    unfold call_OpenConnection. run_monad. rewrite Hf. simpl. rewrite Hc.
    destruct o as [c|conn]; simpl.
    all: unfold send_conns, Chan.send; run_monad; simpl; rewrite Hopen.
    all: destruct (Z.ltb_spec (Chan.len (conns p)) (Chan.cap (conns p))); [|lia].
    all: simpl; rewrite (IH n); simpl; [|done|done|..|lia|done|].
    + rewrite length_app. simpl.
      rewrite !Nat.add_1_r, <- !app_assoc, Nat.add_succ_r. reflexivity.
    + unfold Chan.len in *. simpl. rewrite length_app. simpl. lia.
    + by rewrite <- Hfail, Nat.add_succ_r.
    + rewrite <- !app_assoc, Nat.add_succ_r. reflexivity.
    + unfold Chan.len in *. simpl. rewrite length_app. simpl. lia.
    + by rewrite <- Hfail, Nat.add_succ_r.
Qed.

(** X1: [Open] with a factory that does not fail.  On an open store
    with room for [maxConnections] more entries, [Open] returns a nil
    error after exactly [maxConnections] calls of the factory; every
    connection obtained is idle in the store, in the order of the calls,
    behind the entries that were there; the ticker runs; nothing is
    closed.  When the factory allocates what it hands back, these are
    [maxConnections] fresh addresses. *)
Theorem Open_fills (f : Factory) (p : ConnectionPool) (w : World) :
  OpenConnection p = Some f →
  Chan.closed (conns p) = false →
  Chan.len (conns p) + Z.of_nat (Z.to_nat (maxConnections p)) ≤ Chan.cap (conns p) →
  succeeds f (opens w) (Z.to_nat (maxConnections p)) →
  ∃ p' w',
    Open p w = Returns None p' w'
    ∧ Chan.buf (conns p')
      = Chan.buf (conns p)
          ++ handed (length (heap w))
               (created f (opens w) (Z.to_nat (maxConnections p)))
    ∧ length (created f (opens w) (Z.to_nat (maxConnections p)))
      = Z.to_nat (maxConnections p)
    ∧ cleanupTicker p' = Some Running
    ∧ opens w' = (opens w + Z.to_nat (maxConnections p))%nat
    ∧ heap w' = heap w ++ allocated (created f (opens w) (Z.to_nat (maxConnections p)))
    ∧ closes w' = closes w
    ∧ (allocates f →
       Chan.buf (conns p')
       = Chan.buf (conns p) ++ fresh_ptrs (heap w) (Z.to_nat (maxConnections p))
       ∧ length (heap w') = (length (heap w) + Z.to_nat (maxConnections p))%nat).
Proof.
  intros Hf Hopen Hroom Hs. unfold Open. run_monad.
  rewrite (open_loop_succeeds f); [|done..]. simpl.
  eexists _, _. split; [reflexivity|]. simpl.
  pose proof (created_succeeds_length _ _ _ Hs) as Hlen.
  do 6 (split; [done|]).
  intros Hal.
  apply (allocates_created f (opens w) (Z.to_nat (maxConnections p))) in Hal.
  apply (handed_allocated (heap w)) in Hal as [-> Hal].
  by rewrite length_app, Hal, Hlen.
Qed.

(** [TestOpen]: ten calls, ten idle connections. *)
Lemma Open_fills_witness :
  ∃ p' w',
    Open (set_OpenConnection (Some fresh_conn) test_pool) (world_at 0 [])
    = Returns None p' w'
    ∧ Chan.buf (conns p')
      = Chan.buf (conns (set_OpenConnection (Some fresh_conn) test_pool))
          ++ handed (length (heap (world_at 0 [])))
               (created fresh_conn (opens (world_at 0 []))
                  (Z.to_nat (maxConnections
                               (set_OpenConnection (Some fresh_conn) test_pool))))
    ∧ length (created fresh_conn (opens (world_at 0 []))
                (Z.to_nat (maxConnections
                             (set_OpenConnection (Some fresh_conn) test_pool))))
      = Z.to_nat (maxConnections (set_OpenConnection (Some fresh_conn) test_pool))
    ∧ cleanupTicker p' = Some Running
    ∧ opens w'
      = (opens (world_at 0 [])
         + Z.to_nat (maxConnections (set_OpenConnection (Some fresh_conn) test_pool)))%nat
    ∧ heap w'
      = heap (world_at 0 [])
          ++ allocated
               (created fresh_conn (opens (world_at 0 []))
                  (Z.to_nat (maxConnections
                               (set_OpenConnection (Some fresh_conn) test_pool))))
    ∧ closes w' = closes (world_at 0 [])
    ∧ (allocates fresh_conn →
       Chan.buf (conns p')
       = Chan.buf (conns (set_OpenConnection (Some fresh_conn) test_pool))
           ++ fresh_ptrs (heap (world_at 0 []))
                (Z.to_nat (maxConnections
                             (set_OpenConnection (Some fresh_conn) test_pool)))
       ∧ length (heap w')
         = (length (heap (world_at 0 []))
            + Z.to_nat (maxConnections
                          (set_OpenConnection (Some fresh_conn) test_pool)))%nat).
Proof.
  apply (Open_fills fresh_conn (set_OpenConnection (Some fresh_conn) test_pool)
           (world_at 0 [])).
  - reflexivity.
  - reflexivity.
  - vm_compute. discriminate.
  - intros i _. by eexists.
Defined.

(** X2: [Open] stops at the first call of the factory that fails.  If
    that is the [k]-th call from now ([k < maxConnections]), [Open]
    returns the error after [k + 1] calls, with the [k] connections
    obtained so far idle in the store and the ticker as it was: it is
    not started.  When the factory allocates what it hands back, the
    [k] connections are fresh addresses. *)
Theorem Open_fails_fast (f : Factory) (k : nat) (p : ConnectionPool) (w : World) :
  OpenConnection p = Some f →
  Chan.closed (conns p) = false →
  Chan.len (conns p) + Z.of_nat k ≤ Chan.cap (conns p) →
  (k < Z.to_nat (maxConnections p))%nat →
  succeeds f (opens w) k →
  f (opens w + k)%nat = None →
  Open p w
  = Returns (Some ErrOpenConnection)
      (set_conns
         (Chan.set_buf
            (Chan.buf (conns p) ++ handed (length (heap w)) (created f (opens w) k))
            (conns p)) p)
      (set_heap (heap w ++ allocated (created f (opens w) k))
         (set_opens (S (opens w + k)) w))
  ∧ length (created f (opens w) k) = k
  ∧ (allocates f →
     handed (length (heap w)) (created f (opens w) k) = fresh_ptrs (heap w) k).
Proof.
  intros Hf Hopen Hroom Hlt Hs Hfail.
  pose proof (created_succeeds_length _ _ _ Hs) as Hlen.
  split; [|split; [done|]].
  - unfold Open. run_monad. by rewrite (open_loop_fails f k).
  - intros Hal. apply (allocates_created f (opens w) k) in Hal.
    apply (handed_allocated (heap w)) in Hal as [-> _]. by rewrite Hlen.
Qed.

(** The scenario with a factory whose second call fails. *)
Lemma Open_fails_fast_witness :
  Open (set_OpenConnection (Some flaky_conn) scenario_pool) (world_at 0 [])
  = Returns (Some ErrOpenConnection)
      (set_conns
         (Chan.set_buf
            (Chan.buf (conns (set_OpenConnection (Some flaky_conn) scenario_pool))
               ++ handed (length (heap (world_at 0 [])))
                    (created flaky_conn (opens (world_at 0 [])) 1))
            (conns (set_OpenConnection (Some flaky_conn) scenario_pool)))
         (set_OpenConnection (Some flaky_conn) scenario_pool))
      (set_heap
         (heap (world_at 0 [])
            ++ allocated (created flaky_conn (opens (world_at 0 [])) 1))
         (set_opens (S (opens (world_at 0 []) + 1)) (world_at 0 [])))
  ∧ length (created flaky_conn (opens (world_at 0 [])) 1) = 1%nat
  ∧ (allocates flaky_conn →
     handed (length (heap (world_at 0 [])))
       (created flaky_conn (opens (world_at 0 [])) 1)
     = fresh_ptrs (heap (world_at 0 [])) 1).
Proof.
  apply (Open_fails_fast flaky_conn 1
           (set_OpenConnection (Some flaky_conn) scenario_pool) (world_at 0 [])).
  - reflexivity.
  - reflexivity.
  - vm_compute. discriminate.
  - vm_compute. lia.
  - intros [|i] Hi; [by eexists | lia].
  - reflexivity.
Defined.

(** [Open] starts the ticker only when it succeeds, and closes nothing. *)
Lemma open_loop_frame (n : nat) (p p' : ConnectionPool) (w w' : World)
    (e : option error) :
  open_loop n p w = Returns e p' w' →
  cleanupTicker p' = cleanupTicker p ∧ closes w' = closes w.
Proof.
  revert p w.
  induction n as [|n IH]; intros p w; simpl.
  - run_monad. by intros [= <- <- <-].
  - unfold call_OpenConnection, send_conns. run_monad.
    destruct (OpenConnection p) as [f|]; [|done]. simpl.
    destruct (f (opens w)) as [[c|conn]|]; simpl; [..|by intros [= <- <- <-]].
    + destruct (Chan.send (conns p) (S (length (heap w)))) as [ch| |]; [|done..].
      by intros [-> ->]%IH.
    + destruct (Chan.send (conns p) conn) as [ch| |]; [|done..].
      by intros [-> ->]%IH.
Qed.

(** X3: a failed [Open] cannot be cleaned up with [Close].  On a pool
    whose ticker is nil, as [New] leaves it, an [Open] that returns an
    error leaves the ticker nil, so the [Close] that follows panics in
    [p.cleanupTicker.Stop()] before it closes anything: the connections
    that [Open] had made stay open. *)
Theorem Close_after_failed_Open_panics (p p' : ConnectionPool) (w w' : World)
    (e : error) :
  cleanupTicker p = None →
  Open p w = Returns (Some e) p' w' →
  Close p' w' = Panics NilDereference p' w'
  ∧ closes w' = closes w.
Proof.
  intros Ht. unfold Open. run_monad.
  destruct (open_loop _ p w) as [e0 p0 w0| |] eqn:Hloop; [|done..].
  apply open_loop_frame in Hloop as [Ht0 Hc0].
  destruct e0; [|done]. intros [= <- <- <-].
  split; [|done].
  unfold Close, Ticker_Stop. run_monad. by rewrite Ht0, Ht.
Qed.

Lemma Close_after_failed_Open_panics_witness :
  Close (set_OpenConnection (Some flaky_conn)
           (set_conns (Chan.mk [1%nat] 3 false) scenario_pool))
    (set_opens 2 (set_heap [conn_at 0 (1000 * Second)] (world_at 0 [])))
  = Panics NilDereference
      (set_OpenConnection (Some flaky_conn)
         (set_conns (Chan.mk [1%nat] 3 false) scenario_pool))
      (set_opens 2 (set_heap [conn_at 0 (1000 * Second)] (world_at 0 [])))
  ∧ closes (set_opens 2 (set_heap [conn_at 0 (1000 * Second)] (world_at 0 [])))
    = closes (world_at 0 []).
Proof.
  apply (Close_after_failed_Open_panics
           (set_OpenConnection (Some flaky_conn) scenario_pool)
           (set_OpenConnection (Some flaky_conn)
              (set_conns (Chan.mk [1%nat] 3 false) scenario_pool))
           (world_at 0 [])
           (set_opens 2 (set_heap [conn_at 0 (1000 * Second)] (world_at 0 [])))
           ErrOpenConnection).
  - reflexivity.
  - reflexivity.
Defined.

(** ** [Release], and [Acquire] with it *)

Lemma deref_lt (w : World) (conn : ptr) (c : DBConn) :
  deref w conn = Some c → conn = S (Nat.pred conn) ∧ (Nat.pred conn < length (heap w))%nat.
Proof.
  destruct conn as [|i]; [done|]. simpl. intros H. split; [done|].
  by eapply lookup_lt_Some.
Qed.

Lemma deref_stamped (conn : ptr) (c : DBConn) (w : World) :
  deref w conn = Some c →
  deref (stamped conn c w) conn = Some (set_HeartBeat (clock w (ticks w)) c).
Proof.
  intros Hc. destruct (deref_lt _ _ _ Hc) as [_ Hlt].
  destruct conn as [|i]; [done|]. unfold stamped. simpl in *.
  by apply list_lookup_insert_eq.
Qed.

(** [Release] in full: it stamps the entry; then the send goes through,
    blocks or panics as the store has room, is full or is closed. *)
Lemma Release_spec (conn : ptr) (c : DBConn) (p : ConnectionPool) (w : World) :
  deref w conn = Some c →
  Release conn p w
  = match Chan.send (conns p) conn with
    | Chan.Sent ch => Returns tt (set_conns ch p) (stamped conn c w)
    | Chan.SendBlocks => Blocks p (stamped conn c w)
    | Chan.SendPanics => Panics SendOnClosedChannel p (stamped conn c w)
    end.
Proof.
  intros Hc. destruct (deref_lt _ _ _ Hc) as [_ Hlt].
  unfold Release, time_Now, load, store, send_conns, stamped. run_monad. simpl.
  change (deref (set_ticks (S (ticks w)) w) conn) with (deref w conn).
  rewrite Hc. destruct conn as [|i]; [done|]. simpl in *.
  destruct (decide (i < length (heap w))%nat); [|done]. simpl.
  by destruct (Chan.send (conns p) (S i)).
Qed.

(** [Acquire] on a store whose head is live. *)
Lemma Acquire_live_head (pick : Pick) (p : ConnectionPool) (w : World)
    (conn : ptr) (rest : list ptr) (c : DBConn) :
  Chan.buf (conns p) = conn :: rest →
  deref w conn = Some c →
  expired_at c (clock w (ticks w)) = false →
  timer_due (waitTimeout p) = false ∨ pick = PickReceive →
  Acquire pick p w
  = Returns (conn, None) (set_conns (Chan.set_buf rest (conns p)) p)
      (set_ticks (S (ticks w)) w).
Proof.
  intros Hb Hc Hlive Hsel.
  unfold Acquire, select_recv, isConnectionExpired, load, time_Now, Chan.recv.
  run_monad. rewrite Hb.
  destruct Hsel as [-> | ->]; [|destruct (timer_due _)]; simpl.
  all: by rewrite Hc, Hlive.
Qed.

(** X4: [Release] on a full store.  With the store open and full,
    [Release] of a valid entry blocks, and it has already overwritten the
    heartbeat of the entry when it does; the store is as it was. *)
Theorem Release_blocks_when_full (conn : ptr) (c : DBConn)
    (p : ConnectionPool) (w : World) :
  deref w conn = Some c →
  Chan.closed (conns p) = false →
  Chan.cap (conns p) ≤ Chan.len (conns p) →
  Release conn p w = Blocks p (stamped conn c w)
  ∧ deref (stamped conn c w) conn = Some (set_HeartBeat (clock w (ticks w)) c).
Proof.
  intros Hc Hopen Hfull. split; [|by apply deref_stamped].
  rewrite (Release_spec conn c); [|done].
  unfold Chan.send. rewrite Hopen.
  by destruct (Z.ltb_spec (Chan.len (conns p)) (Chan.cap (conns p))); [lia|].
Qed.

(** A [Release] without an [Acquire] on the pool that [Open] has just
    filled. *)
Lemma Release_blocks_when_full_witness :
  Release 1 opened_pool (opened_world (1005 * Second))
  = Blocks opened_pool
      (stamped 1 (conn_at 0 (1000 * Second)) (opened_world (1005 * Second)))
  ∧ deref (stamped 1 (conn_at 0 (1000 * Second)) (opened_world (1005 * Second))) 1
    = Some (set_HeartBeat
              (clock (opened_world (1005 * Second))
                 (ticks (opened_world (1005 * Second))))
              (conn_at 0 (1000 * Second))).
Proof.
  apply (Release_blocks_when_full 1 (conn_at 0 (1000 * Second)) opened_pool
           (opened_world (1005 * Second))).
  - reflexivity.
  - reflexivity.
  - vm_compute. discriminate.
Defined.

(** X5: [Release] after [Close].  Once a [Close] has returned, [Release]
    of a valid entry panics (send on closed channel), after it has
    overwritten the heartbeat; the resource of the entry is not closed. *)
Theorem Release_after_Close_panics (conn : ptr) (c : DBConn)
    (p p' : ConnectionPool) (w w' : World) :
  Close p w = Returns tt p' w' →
  deref w' conn = Some c →
  Release conn p' w' = Panics SendOnClosedChannel p' (stamped conn c w')
  ∧ closes (stamped conn c w') = closes w'.
Proof.
  intros [_ Hclosed]%Close_Returns Hc. split; [|done].
  rewrite (Release_spec conn c); [|done].
  unfold Chan.send. by rewrite Hclosed.
Qed.

Lemma Release_after_Close_panics_witness :
  Close (set_conns (Chan.mk [2; 3]%nat 3 false) opened_pool)
    (opened_world (1005 * Second))
  = Returns tt (shut opened_pool)
      (set_closes [1; 2]%nat (set_once_done true (opened_world (1005 * Second))))
  ∧ Release 1 (shut opened_pool)
      (set_closes [1; 2]%nat (set_once_done true (opened_world (1005 * Second))))
    = Panics SendOnClosedChannel (shut opened_pool)
        (stamped 1 (conn_at 0 (1000 * Second))
           (set_closes [1; 2]%nat
              (set_once_done true (opened_world (1005 * Second)))))
  ∧ closes
      (stamped 1 (conn_at 0 (1000 * Second))
         (set_closes [1; 2]%nat
            (set_once_done true (opened_world (1005 * Second)))))
    = closes
        (set_closes [1; 2]%nat (set_once_done true (opened_world (1005 * Second)))).
Proof.
  split; [reflexivity|].
  apply (Release_after_Close_panics 1 (conn_at 0 (1000 * Second))
           (set_conns (Chan.mk [2; 3]%nat 3 false) opened_pool)
           (shut opened_pool)
           (opened_world (1005 * Second))
           (set_closes [1; 2]%nat
              (set_once_done true (opened_world (1005 * Second))))).
  - reflexivity.
  - reflexivity.
Defined.

(** X6: a released entry is live again.  [Release] into an empty open
    store followed by [Acquire] hands the same entry back, whatever its
    heartbeat was before, as long as the clock has not advanced by more
    than the time-out of the entry between the two calls; the store is
    empty again and nothing is closed. *)
Theorem Release_then_Acquire (pick : Pick) (conn : ptr) (c : DBConn)
    (p : ConnectionPool) (w : World) :
  deref w conn = Some c →
  Chan.buf (conns p) = [] →
  Chan.closed (conns p) = false →
  0 < Chan.cap (conns p) →
  timer_due (waitTimeout p) = false ∨ pick = PickReceive →
  clock w (S (ticks w)) ≤ clock w (ticks w) + TimeOut c →
  (Release conn;; Acquire pick) p w
  = Returns (conn, None) p (set_ticks (S (S (ticks w))) (stamped conn c w)).
Proof.
  intros Hc Hb Hopen Hcap Hsel Hclock. run_monad.
  rewrite (Release_spec conn c); [|done].
  assert (Hsend : Chan.send (conns p) conn
                  = Chan.Sent (Chan.set_buf [conn] (conns p))).
  { unfold Chan.send, Chan.len. rewrite Hopen, Hb. simpl.
    change (Z.of_nat 0) with 0.
    destruct (Z.ltb_spec 0 (Chan.cap (conns p))); [done | lia]. }
  rewrite Hsend.
  assert (He : expired_at (set_HeartBeat (clock w (ticks w)) c)
                 (clock w (S (ticks w))) = false).
  { unfold expired_at, Time_Before, Time_Add. simpl. apply Z.ltb_ge. lia. }
  rewrite (Acquire_live_head pick _ _ conn []
             (set_HeartBeat (clock w (ticks w)) c));
    [| reflexivity | by apply deref_stamped | exact He | exact Hsel].
  simpl. f_equal.
  destruct p as [[b k cl] ? ? ? ? ?]. simpl in *. by subst b.
Qed.

(** An entry whose heartbeat is an hour old, released and acquired five
    seconds later. *)
Lemma Release_then_Acquire_witness :
  (Release 1;; Acquire PickReceive) test_pool
    (mkWorld [conn_at 7 0] [] false
       (λ k, 3600 * Second + 5 * Second * Z.of_nat k) O O)
  = Returns (1%nat, None) test_pool
      (set_ticks 2
         (stamped 1 (conn_at 7 0)
            (mkWorld [conn_at 7 0] [] false
               (λ k, 3600 * Second + 5 * Second * Z.of_nat k) O O))).
Proof.
  apply (Release_then_Acquire PickReceive 1 (conn_at 7 0) test_pool
           (mkWorld [conn_at 7 0] [] false
              (λ k, 3600 * Second + 5 * Second * Z.of_nat k) O O)).
  - reflexivity.
  - reflexivity.
  - reflexivity.
  - reflexivity.
  - left. reflexivity.
  - vm_compute. discriminate.
Defined.

(** ** The goroutines of the demo *)

(** An error from [Acquire] comes with a nil connection. *)
Lemma Acquire_error_nil (pick : Pick) (p p' : ConnectionPool) (w w' : World)
    (conn : ptr) (e : error) :
  Acquire pick p w = Returns (conn, Some e) p' w' → conn = nil.
Proof.
  unfold Acquire, select_recv, isConnectionExpired, load, time_Now, DB_Close.
  run_monad.
  destruct (Chan.recv (conns p)) as [x ok ch|]; [|by intros [= <- <- <- <-]].
  destruct (timer_due (waitTimeout p)), pick; simpl.
  2: by intros [= <- <- <- <-].
  all: destruct (deref w x) as [c|] eqn:Hc; [|done].
  all: simpl.
  all: destruct (expired_at c (clock w (ticks w))) eqn:He; simpl; [|done].
  all: change (deref (set_ticks (S (ticks w)) w) x) with (deref w x).
  all: rewrite Hc.
  all: by intros [= <- <- <- <-].
Qed.

(** X7: the goroutines of the [dbpool] demo drop the error of
    [Acquire].  Whenever [Acquire] returns an error (time-out on an
    empty store, or an expired entry, which it has closed), the
    goroutine goes on with the nil connection and panics in [Check]. *)
Theorem worker_panics_on_failed_Acquire (ping : resource → bool) (pick : Pick)
    (p p' : ConnectionPool) (w w' : World) (conn : ptr) (e : error) :
  Acquire pick p w = Returns (conn, Some e) p' w' →
  worker ping pick p w = Panics NilDereference p' w'.
Proof.
  intros Hacq. pose proof (Acquire_error_nil _ _ _ _ _ _ _ Hacq) as ->.
  unfold worker, Check, load. run_monad. by rewrite Hacq.
Qed.

(** A goroutine that finds the store empty. *)
Lemma worker_panics_on_failed_Acquire_witness :
  Acquire PickReceive test_pool (world_at 0 [])
  = Returns (nil, Some ErrTimeoutWaiting) test_pool (world_at 0 [])
  ∧ worker (λ _, true) PickReceive test_pool (world_at 0 [])
    = Panics NilDereference test_pool (world_at 0 []).
Proof.
  split; [reflexivity|].
  apply (worker_panics_on_failed_Acquire (λ _, true) PickReceive
           test_pool test_pool (world_at 0 []) (world_at 0 [])
           nil ErrTimeoutWaiting).
  reflexivity.
Defined.

(** X8: a goroutine of the demo that gets a live entry.  It returns the
    answer of the ping, and leaves the store rotated by one: the entry
    it took from the head is at the back, with its heartbeat set to the
    time of the [Release]; no resource is closed and no entry is lost. *)
Theorem worker_rotates (ping : resource → bool) (pick : Pick)
    (p : ConnectionPool) (w : World)
    (conn : ptr) (rest : list ptr) (c : DBConn) :
  Chan.buf (conns p) = conn :: rest →
  deref w conn = Some c →
  expired_at c (clock w (ticks w)) = false →
  timer_due (waitTimeout p) = false ∨ pick = PickReceive →
  Chan.closed (conns p) = false →
  Chan.len (conns p) ≤ Chan.cap (conns p) →
  worker ping pick p w
  = Returns (ping (DB c))
      (set_conns (Chan.set_buf (rest ++ [conn]) (conns p)) p)
      (stamped conn c (set_ticks (S (ticks w)) w)).
Proof.
  intros Hb Hc Hlive Hsel Hopen Hcap.
  unfold worker, Check, load. run_monad.
  rewrite (Acquire_live_head pick p w conn rest c); [|done..].
  simpl.
  change (deref (set_ticks (S (ticks w)) w) conn) with (deref w conn).
  rewrite Hc.
  rewrite (Release_spec conn c); [|done].
  assert (Hsend :
    Chan.send (conns (set_conns (Chan.set_buf rest (conns p)) p)) conn
    = Chan.Sent (Chan.set_buf (rest ++ [conn]) (conns p))).
  { unfold Chan.send, Chan.len in *. simpl. rewrite Hopen.
    rewrite Hb in Hcap. simpl length in Hcap.
    destruct (Z.ltb_spec (Z.of_nat (length rest)) (Chan.cap (conns p))); [done | lia]. }
  rewrite Hsend. by destruct p.
Qed.

Lemma worker_rotates_witness :
  worker (λ r, Nat.even r) PickReceive opened_pool (opened_world (1005 * Second))
  = Returns (Nat.even (DB (conn_at 0 (1000 * Second))))
      (set_conns (Chan.set_buf ([2; 3]%nat ++ [1%nat]) (conns opened_pool))
         opened_pool)
      (stamped 1 (conn_at 0 (1000 * Second))
         (set_ticks (S (ticks (opened_world (1005 * Second))))
            (opened_world (1005 * Second)))).
Proof.
  apply (worker_rotates (λ r, Nat.even r) PickReceive opened_pool
           (opened_world (1005 * Second)) 1 [2; 3]%nat (conn_at 0 (1000 * Second))).
  - reflexivity.
  - reflexivity.
  - reflexivity.
  - left. reflexivity.
  - reflexivity.
  - vm_compute. discriminate.
Defined.

(** ** The maintenance tick *)

(** With a [newConns] that takes no send, what the eviction loop has
    closed when it ends, in whichever way, is a run of expired entries
    from the head of the store. *)
Lemma evict_closes_prefix (timeout : Duration) (pick : Pick) (nc : Chan.t)
    (pending : list ptr) (p : ConnectionPool) (w : World) :
  Chan.cap nc ≤ Chan.len nc →
  ∃ pre suf,
    pending = pre ++ suf
    ∧ all_expired w (ticks w) pre
    ∧ closes (outcome_world (evict timeout pick nc pending p w))
      = closes w ++ resources w pre.
Proof.
  intros Hfull. revert p w.
  induction pending as [|conn rest IH]; intros p w.
  - exists [], []. split; [done|]. split; [done|]. simpl.
    unfold swap_conns. run_monad. rewrite app_nil_r.
    destruct (Chan.closed (conns p)); [|done].
    by destruct (timer_due timeout), pick.
  - assert (Hstop : ∀ o : Outcome unit, closes (outcome_world o) = closes w →
      ∃ pre suf, conn :: rest = pre ++ suf ∧ all_expired w (ticks w) pre
        ∧ closes (outcome_world o) = closes w ++ resources w pre).
    { intros o Ho. exists [], (conn :: rest). simpl. by rewrite app_nil_r. }
    assert (Hgo :
      ∃ pre suf, conn :: rest = pre ++ suf ∧ all_expired w (ticks w) pre
        ∧ closes (outcome_world
            ((pop_conns rest;;
              classify nc conn (λ nc0, evict timeout pick nc0 rest)) p w))
          = closes w ++ resources w pre).
    { unfold pop_conns, classify, load, time_Now, DB_Close. run_monad. simpl.
      destruct (deref w conn) as [c|] eqn:Hc; [|by apply Hstop].
      destruct (expired_at c (clock w (ticks w))) eqn:He; simpl.
      - destruct (IH (set_conns (Chan.set_buf rest (conns p)) p)
                    (set_closes (closes w ++ [DB c]) (set_ticks (S (ticks w)) w)))
          as (pre & suf & -> & Hall & Hcl).
        exists (conn :: pre), suf. split; [done|]. split.
        + simpl. split; [by exists c|]. by eapply all_expired_ext, Hall.
        + rewrite Hcl. simpl. rewrite Hc, <- app_assoc. simpl.
          by rewrite (resources_ext w).
      - destruct (send_full nc conn Hfull) as [-> | ->]; by apply Hstop. }
    simpl. destruct (timer_due timeout), pick; try exact Hgo.
    by apply Hstop.
Qed.

(** X9: the eviction step closes expired entries only.  However
    [CloseExpiredConnections] ends (it returns, blocks or panics), the
    resources it has closed are those of a run of entries at the head
    of the store, each of them expired at the reading of the clock made
    for it: an entry that is not expired is never closed. *)
Theorem CloseExpiredConnections_closes_only_expired (pick : Pick)
    (p : ConnectionPool) (w : World) :
  ∃ pre suf,
    Chan.buf (conns p) = pre ++ suf
    ∧ all_expired w (ticks w) pre
    ∧ closes (outcome_world (CloseExpiredConnections pick p w))
      = closes w ++ resources w pre.
Proof.
  unfold CloseExpiredConnections. run_monad.
  apply evict_closes_prefix. by vm_compute.
Qed.

(** On a store without room the refill returns only if every call of
    the factory fails, and then the pool is as it was. *)
Lemma refill_Returns_full (n : nat) (p p' : ConnectionPool) (w w' : World) :
  Chan.cap (conns p) ≤ Chan.len (conns p) →
  refill n p w = Returns tt p' w' →
  p' = p ∧ heap w' = heap w.
Proof.
  intros Hfull. revert w.
  induction n as [|n IH]; intros w; simpl.
  - run_monad. by intros [= <- <-].
  - unfold call_OpenConnection, send_conns. run_monad.
    destruct (OpenConnection p) as [f|]; [|done]. simpl.
    destruct (f (opens w)) as [[c|conn]|]; simpl.
    + by destruct (send_full (conns p) (S (length (heap w))) Hfull) as [-> | ->].
    + by destruct (send_full (conns p) conn Hfull) as [-> | ->].
    + intros H. by apply IH in H.
Qed.

(** X10: a tick that returns leaves no idle entry.  Whenever [Cleaner]
    returns, the store of the pool is the unbuffered channel made by the
    eviction: its length and its capacity are [0], and the refill has
    created no connection. *)
Theorem Cleaner_Returns_unbuffered (pick : Pick) (p p' : ConnectionPool)
    (w w' : World) :
  Cleaner pick p w = Returns tt p' w' →
  p' = set_conns Chan.make_unbuffered p
  ∧ Chan.len (conns p') = 0
  ∧ Chan.cap (conns p') = 0
  ∧ length (heap w') = length (heap w).
Proof.
  unfold Cleaner, CloseExpiredConnections, MaintainMinConnections. run_monad.
  destruct (evict _ pick Chan.make_unbuffered (Chan.buf (conns p)) p w)
    as [[] p1 w1| |] eqn:Hev; [|done..].
  intros H.
  assert (Hh : heap w1 = heap w).
  { clear H.
    assert (∀ pending nc q v, evict (Chan.len (conns p) * timePerConn) pick nc
              pending q v = Returns tt p1 w1 → heap w1 = heap v) as Hgen.
    { induction pending as [|conn rest IH]; intros nc q v; simpl.
      - unfold swap_conns. run_monad.
        destruct (Chan.closed (conns q)); [destruct (timer_due _), pick|].
        all: intros E; inversion E; done.
      - unfold swap_conns, pop_conns, classify, load, time_Now, DB_Close.
        run_monad.
        destruct (timer_due _), pick; simpl.
        2: { intros E; inversion E; done. }
        all: destruct (deref v conn) as [c|]; [|done].
        all: destruct (negb _).
        all: try (destruct (Chan.send nc conn); [|done..]).
        all: by intros ->%IH. }
    by eapply Hgen. }
  apply evict_Returns in Hev; [|by vm_compute]. subst p1.
  apply refill_Returns_full in H as [-> Hh']; [|by vm_compute].
  by rewrite Hh', Hh.
Qed.

Lemma Cleaner_Returns_unbuffered_witness :
  Cleaner PickReceive (set_conns (Chan.mk [1; 2; 3]%nat 3 false)
                         (set_OpenConnection (Some (λ _, None)) opened_pool))
    (opened_world (1011 * Second))
  = Returns tt
      (set_conns Chan.make_unbuffered
         (set_OpenConnection (Some (λ _, None)) opened_pool))
      (set_opens 4 (set_closes [0; 1; 2]%nat
                      (set_ticks 3 (opened_world (1011 * Second)))))
  ∧ set_conns Chan.make_unbuffered
      (set_OpenConnection (Some (λ _, None)) opened_pool)
    = set_conns Chan.make_unbuffered
        (set_conns (Chan.mk [1; 2; 3]%nat 3 false)
           (set_OpenConnection (Some (λ _, None)) opened_pool))
  ∧ Chan.len (conns (set_conns Chan.make_unbuffered
                       (set_OpenConnection (Some (λ _, None)) opened_pool))) = 0
  ∧ Chan.cap (conns (set_conns Chan.make_unbuffered
                       (set_OpenConnection (Some (λ _, None)) opened_pool))) = 0
  ∧ length (heap (set_opens 4 (set_closes [0; 1; 2]%nat
                      (set_ticks 3 (opened_world (1011 * Second))))))
    = length (heap (opened_world (1011 * Second))).
Proof.
  split; [reflexivity|].
  apply (Cleaner_Returns_unbuffered PickReceive
           (set_conns (Chan.mk [1; 2; 3]%nat 3 false)
              (set_OpenConnection (Some (λ _, None)) opened_pool))
           (set_conns Chan.make_unbuffered
              (set_OpenConnection (Some (λ _, None)) opened_pool))
           (opened_world (1011 * Second))
           (set_opens 4 (set_closes [0; 1; 2]%nat
                           (set_ticks 3 (opened_world (1011 * Second)))))).
  reflexivity.
Defined.

(** X11: a tick never gets a fresh connection into the store.  On an
    open store whose idle entries are all expired, with
    [minConnections >= 1] and a factory whose next call succeeds,
    [Cleaner] closes every idle entry, replaces the store, obtains one
    connection from the factory and blocks on the send of it: the store
    is empty and the new connection is in no store. *)
Theorem Cleaner_blocks_on_first_success (pick : Pick) (f : Factory) (o : Opened)
    (p : ConnectionPool) (w : World) :
  Chan.closed (conns p) = false →
  all_expired w (ticks w) (Chan.buf (conns p)) →
  OpenConnection p = Some f →
  1 ≤ minConnections p →
  f (opens w) = Some o →
  Cleaner pick p w
  = Blocks (set_conns Chan.make_unbuffered p)
      (set_heap (heap w ++ allocated [o])
         (set_opens (S (opens w))
            (set_closes (closes w ++ resources w (Chan.buf (conns p)))
               (set_ticks (ticks w + length (Chan.buf (conns p))) w)))).
Proof.
  intros Hopen Hall Hf Hmin Hc. unfold Cleaner. run_monad.
  rewrite CloseExpiredConnections_all_expired; [|done..].
  unfold MaintainMinConnections. run_monad. simpl.
  change (Chan.len Chan.make_unbuffered) with 0.
  destruct (Z.to_nat (minConnections p - 0)) as [|n] eqn:Hn; [lia|]. simpl.
  unfold call_OpenConnection, send_conns. run_monad. simpl.
  rewrite Hf. cbn [opens set_closes set_ticks]. rewrite Hc.
  destruct o as [c|conn]; simpl; [done|].
  by rewrite app_nil_r.
Qed.

(** The tick after [Open(max=3, min=1)], all three entries expired. *)
Lemma Cleaner_blocks_on_first_success_witness :
  Cleaner PickReceive opened_pool (opened_world (1011 * Second))
  = Blocks (set_conns Chan.make_unbuffered opened_pool)
      (set_heap
         (heap (opened_world (1011 * Second))
            ++ allocated [Allocated (conn_at 3 (1000 * Second))])
         (set_opens (S (opens (opened_world (1011 * Second))))
            (set_closes
               (closes (opened_world (1011 * Second))
                  ++ resources (opened_world (1011 * Second))
                       (Chan.buf (conns opened_pool)))
               (set_ticks
                  (ticks (opened_world (1011 * Second))
                     + length (Chan.buf (conns opened_pool)))
                  (opened_world (1011 * Second)))))).
Proof.
  apply (Cleaner_blocks_on_first_success PickReceive fresh_conn
           (Allocated (conn_at 3 (1000 * Second)))
           opened_pool (opened_world (1011 * Second))).
  - reflexivity.
  - simpl. repeat split; by eexists.
  - reflexivity.
  - vm_compute. discriminate.
  - reflexivity.
Defined.

(** The refill, however it ends, has added at most [n] entries behind
    those of the store, has removed none, has left the structs of the
    heap in place and has closed nothing. *)
Lemma refill_bounds (n : nat) (p : ConnectionPool) (w : World) :
  ∃ added new,
    Chan.buf (conns (outcome_pool (refill n p w))) = Chan.buf (conns p) ++ added
    ∧ (length added ≤ n)%nat
    ∧ heap (outcome_world (refill n p w)) = heap w ++ new
    ∧ closes (outcome_world (refill n p w)) = closes w.
Proof.
  revert p w.
  induction n as [|n IH]; intros p w; simpl.
  - run_monad. simpl. exists [], []. by rewrite !app_nil_r.
  - unfold call_OpenConnection, send_conns. run_monad.
    destruct (OpenConnection p) as [f|]; simpl;
      [|exists [], []; rewrite !app_nil_r; repeat split; simpl; (done || lia)].
    destruct (f (opens w)) as [[c|conn]|]; simpl.
    + unfold Chan.send.
      destruct (Chan.closed (conns p)); simpl;
        [exists [], [c]; rewrite !app_nil_r; repeat split; simpl; (done || lia)|].
      destruct (Chan.len (conns p) <? Chan.cap (conns p)); simpl;
        [|exists [], [c]; rewrite !app_nil_r; repeat split; simpl; (done || lia)].
      match goal with
      | |- context [refill n ?q ?v] =>
          destruct (IH q v) as (added & new & H1 & H2 & H3 & H4)
      end.
      exists (S (length (heap w)) :: added), (c :: new).
      rewrite H1, H3, H4. simpl. rewrite <- !app_assoc. simpl.
      repeat split; simpl; (done || lia).
    + unfold Chan.send.
      destruct (Chan.closed (conns p)); simpl;
        [exists [], []; rewrite !app_nil_r; repeat split; simpl; (done || lia)|].
      destruct (Chan.len (conns p) <? Chan.cap (conns p)); simpl;
        [|exists [], []; rewrite !app_nil_r; repeat split; simpl; (done || lia)].
      match goal with
      | |- context [refill n ?q ?v] =>
          destruct (IH q v) as (added & new & H1 & H2 & H3 & H4)
      end.
      exists (conn :: added), new.
      rewrite H1, H3, H4. simpl. rewrite <- !app_assoc. simpl.
      repeat split; simpl; (done || lia).
    + match goal with
      | |- context [refill n ?q ?v] =>
          destruct (IH q v) as (added & new & H1 & H2 & H3 & H4)
      end.
      exists added, new. rewrite H1, H3, H4. simpl. repeat split; simpl; (done || lia).
Qed.

(** X12: the refill keeps to its target.  However
    [MaintainMinConnections] ends, the store holds the entries it held,
    in their order, with the entries added behind them: none is removed
    or overwritten; the structs on the heap stay where they were, with
    the structs allocated behind them; no resource is closed; and the
    idle count is at most the larger of the initial idle count and
    [minConnections]: the floor is never overshot, and a store at or
    above the floor is left alone. *)
Theorem MaintainMinConnections_bounds (p : ConnectionPool) (w : World) :
  ∃ added new,
    Chan.buf (conns (outcome_pool (MaintainMinConnections p w)))
    = Chan.buf (conns p) ++ added
    ∧ heap (outcome_world (MaintainMinConnections p w)) = heap w ++ new
    ∧ Chan.len (conns p)
      ≤ Chan.len (conns (outcome_pool (MaintainMinConnections p w)))
    ∧ Chan.len (conns (outcome_pool (MaintainMinConnections p w)))
      ≤ Z.max (Chan.len (conns p)) (minConnections p)
    ∧ closes (outcome_world (MaintainMinConnections p w)) = closes w.
Proof.
  unfold MaintainMinConnections. run_monad.
  destruct (refill_bounds (Z.to_nat (minConnections p - Chan.len (conns p))) p w)
    as (added & new & H1 & H2 & H3 & H4).
  exists added, new. split; [done|]. split; [done|].
  unfold Chan.len in *. rewrite H1, length_app.
  repeat split; [lia | lia | done].
Qed.

(** ** [Close] and what follows it *)

(** X13: [Close_idempotent] on the pool of the scenario: a first [Close]
    and three more. *)
Lemma Close_idempotent_witness :
  Close opened_pool (opened_world (1005 * Second))
  = Returns tt (shut opened_pool)
      (set_closes
         (closes (opened_world (1005 * Second))
            ++ resources (opened_world (1005 * Second)) (Chan.buf (conns opened_pool)))
         (set_once_done true (opened_world (1005 * Second))))
  ∧ Nat.iter 3 (λ o, match o with
                     | Returns _ p' w' => Close p' w'
                     | _ => o
                     end)
      (Close opened_pool (opened_world (1005 * Second)))
    = Close opened_pool (opened_world (1005 * Second)).
Proof.
  apply (Close_idempotent 3 opened_pool (opened_world (1005 * Second))).
  - by eexists.
  - reflexivity.
  - reflexivity.
  - unfold valid. simpl. repeat constructor; by eexists.
Defined.

(** The range loop of [Close] does not touch the ticker. *)
Lemma drain_ticker (pending : list ptr) (p p' : ConnectionPool) (w w' : World) :
  drain pending p w = Returns tt p' w' →
  cleanupTicker p' = cleanupTicker p.
Proof.
  revert p w.
  induction pending as [|conn rest IH]; intros p w; simpl.
  - run_monad. destruct (Chan.closed (conns p)); [|done]. by intros [= <- <-].
  - unfold pop_conns, load, DB_Close. run_monad. simpl.
    destruct (deref w conn); [|done]. by intros ->%IH.
Qed.

(** X14: [Close] of [redispool] leaves the ticker running, and the next
    tick finds a closed store.  After a [Close] of [redispool] that has
    returned, the ticker of the pool is as it was, and a [Cleaner] whose
    [select] takes the receive case gets [nil] from the closed channel
    and panics on [conn.HeartBeat]. *)
Theorem Cleaner_after_Redis_Close_panics (p p' : ConnectionPool) (w w' : World) :
  Redis.Close p w = Returns tt p' w' →
  cleanupTicker p' = cleanupTicker p
  ∧ Redis.Cleaner PickReceive p' w' = Panics NilDereference p' w'.
Proof.
  unfold Redis.Close, close_conns. run_monad.
  destruct (Chan.close (conns p)) as [c|] eqn:Hc; [|done]. simpl.
  intros H. split.
  - by apply drain_ticker in H.
  - apply drain_Returns in H as [Hb Hclosed]; [|done].
    unfold Redis.Cleaner, Cleaner, CloseExpiredConnections. run_monad.
    rewrite Hb. simpl. run_monad. rewrite Hclosed.
    by destruct (timer_due _).
Qed.

Lemma Cleaner_after_Redis_Close_panics_witness :
  cleanupTicker (set_conns (Chan.mk [] 3 true) opened_pool)
  = cleanupTicker opened_pool
  ∧ Redis.Cleaner PickReceive (set_conns (Chan.mk [] 3 true) opened_pool)
      (set_closes [0; 1; 2]%nat (opened_world (1005 * Second)))
    = Panics NilDereference (set_conns (Chan.mk [] 3 true) opened_pool)
        (set_closes [0; 1; 2]%nat (opened_world (1005 * Second))).
Proof.
  apply (Cleaner_after_Redis_Close_panics opened_pool
           (set_conns (Chan.mk [] 3 true) opened_pool)
           (opened_world (1005 * Second))
           (set_closes [0; 1; 2]%nat (opened_world (1005 * Second)))).
  reflexivity.
Defined.

(** ** [Open] of [redispool] *)

(** The loop of [redispool.Open] changes a struct only by replacing a
    zero heartbeat, and gives every struct it adds a heartbeat that is
    not the zero time, as long as the clock never reads the zero time.
    With a factory that allocates what it hands back, it changes no
    struct that was on the heap. *)
Lemma Redis_open_loop_stamps (n : nat) (p p' : ConnectionPool) (w w' : World)
    (e : option error) :
  (∀ k, clock w k ≠ 0) →
  Redis.open_loop n p w = Returns e p' w' →
  clock w' = clock w
  ∧ (length (heap w) ≤ length (heap w'))%nat
  ∧ (∀ i c, heap w !! i = Some c → HeartBeat c ≠ 0 → heap w' !! i = Some c)
  ∧ (∀ i c, heap w' !! i = Some c → (length (heap w) ≤ i)%nat → HeartBeat c ≠ 0)
  ∧ ((∀ f, OpenConnection p = Some f → allocates f) →
     ∀ i, (i < length (heap w))%nat → heap w' !! i = heap w !! i).
Proof.
  intros Hclock. revert p w Hclock.
  induction n as [|n IH]; intros p w Hclock; simpl.
  - run_monad. intros [= <- <- <-].
    split; [done|]. split; [lia|]. split; [done|]. split; [|done].
    intros i c Hi Hle. apply lookup_lt_Some in Hi. lia.
  - set (A := ∀ f, OpenConnection p = Some f → allocates f).
    assert (Hstep : ∀ (v : World) (x : ptr),
      clock v = clock w →
      (length (heap w) ≤ length (heap v))%nat →
      (∀ i c, heap w !! i = Some c → HeartBeat c ≠ 0 → heap v !! i = Some c) →
      (∀ i c, heap v !! i = Some c → (length (heap w) ≤ i)%nat → HeartBeat c ≠ 0) →
      (A → ∀ i, (i < length (heap w))%nat → heap v !! i = heap w !! i) →
      (match Chan.send (conns p) x with
       | Chan.Sent ch => Redis.open_loop n (set_conns ch p) v
       | Chan.SendBlocks => Blocks p v
       | Chan.SendPanics => Panics SendOnClosedChannel p v
       end = Returns e p' w') →
      clock w' = clock w
      ∧ (length (heap w) ≤ length (heap w'))%nat
      ∧ (∀ i c, heap w !! i = Some c → HeartBeat c ≠ 0 → heap w' !! i = Some c)
      ∧ (∀ i c, heap w' !! i = Some c → (length (heap w) ≤ i)%nat
                → HeartBeat c ≠ 0)
      ∧ (A → ∀ i, (i < length (heap w))%nat → heap w' !! i = heap w !! i)).
    { intros v x Hcv Hlv Hv1 Hv2 Hv4.
      destruct (Chan.send (conns p) x) as [ch| |]; [|done..].
      intros H. apply IH in H as (Hk & Hlen & H1 & H2 & H4);
        [|intros k; rewrite Hcv; apply Hclock].
      split; [congruence|]. split; [lia|]. split; [|split].
      - intros i c Hi Hne. apply H1; [by apply Hv1 | done].
      - intros i c Hi Hle.
        destruct (decide (i < length (heap v))%nat) as [Hlt|Hge].
        + apply lookup_lt_is_Some in Hlt as [cv Hcv'].
          pose proof (Hv2 i cv Hcv' Hle) as Hne.
          rewrite (H1 i cv Hcv' Hne) in Hi. by injection Hi as <-.
        + apply (H2 i c Hi). lia.
      - intros Hal i Hi. rewrite H4; [by apply Hv4 | done | lia]. }
    unfold call_OpenConnection. run_monad.
    destruct (OpenConnection p) as [f|] eqn:Hf; [|done]. simpl.
    destruct (f (opens w)) as [[c0|conn]|] eqn:Hk; simpl.
    3: { intros [= <- <- <-].
         split; [done|]. split; [simpl; lia|]. split; [done|]. split; [|done].
         intros i c Hi Hle. apply lookup_lt_Some in Hi. simpl in Hi. lia. }
    + unfold load, store, time_Now, send_conns. run_monad. simpl.
      rewrite lookup_app_r, Nat.sub_diag by lia. simpl.
      set (c1 := if Time_IsZero (HeartBeat c0)
                 then set_HeartBeat (clock w (ticks w)) c0 else c0).
      assert (Hc1 : HeartBeat c1 ≠ 0).
      { unfold c1, Time_IsZero. destruct (Z.eqb_spec (HeartBeat c0) 0); [|done].
        simpl. apply Hclock. }
      assert (Hfresh : ∀ v : World,
        heap v = heap w ++ [c1] → clock v = clock w →
        (match Chan.send (conns p) (S (length (heap w))) with
         | Chan.Sent ch => Redis.open_loop n (set_conns ch p) v
         | Chan.SendBlocks => Blocks p v
         | Chan.SendPanics => Panics SendOnClosedChannel p v
         end = Returns e p' w') →
        clock w' = clock w
        ∧ (length (heap w) ≤ length (heap w'))%nat
        ∧ (∀ i c, heap w !! i = Some c → HeartBeat c ≠ 0 → heap w' !! i = Some c)
        ∧ (∀ i c, heap w' !! i = Some c → (length (heap w) ≤ i)%nat
                  → HeartBeat c ≠ 0)
        ∧ (A → ∀ i, (i < length (heap w))%nat → heap w' !! i = heap w !! i)).
      { intros v Hv Hcv. apply Hstep; [done|..].
        - rewrite Hv, length_app. simpl. lia.
        - intros i c Hi _. rewrite Hv. by apply lookup_app_l_Some.
        - intros i c Hi Hle. rewrite Hv in Hi.
          pose proof (lookup_lt_Some _ _ _ Hi) as Hlt.
          rewrite length_app in Hlt. simpl in Hlt.
          assert (i = length (heap w)) as -> by lia.
          rewrite lookup_app_r, Nat.sub_diag in Hi by lia. simpl in Hi.
          by injection Hi as <-.
        - intros _ i Hi. rewrite Hv. by rewrite lookup_app_l. }
      unfold c1 in Hfresh. destruct (Time_IsZero (HeartBeat c0)); simpl.
      * destruct (decide (length (heap w) < length (heap w ++ [c0]))%nat) as [_|Hn];
          [|rewrite length_app in Hn; simpl in Hn; lia].
        simpl. intros H.
        apply (Hfresh (set_heap
                        (<[length (heap w) := set_HeartBeat (clock w (ticks w)) c0]>
                           (heap w ++ [c0]))
                        (set_ticks (S (ticks w))
                           (set_heap (heap w ++ [c0]) (set_opens (S (opens w)) w))))).
        -- simpl. by rewrite insert_app_r_alt, Nat.sub_diag by lia.
        -- done.
        -- by destruct (Chan.send (conns p) (S (length (heap w)))).
      * intros H.
        apply (Hfresh (set_heap (heap w ++ [c0]) (set_opens (S (opens w)) w)));
          [done | done |].
        by destruct (Chan.send (conns p) (S (length (heap w)))).
    + unfold load, store, time_Now, send_conns. run_monad. simpl.
      destruct conn as [|j]; simpl; [done|].
      destruct (heap w !! j) as [c0|] eqn:Hj; [|done]. simpl.
      pose proof (lookup_lt_Some _ _ _ Hj) as Hjlt.
      unfold Time_IsZero. destruct (Z.eqb_spec (HeartBeat c0) 0) as [Hz|Hnz]; simpl.
      * destruct (decide (j < length (heap w))%nat) as [_|Hn]; [|lia].
        simpl. intros H.
        apply (Hstep (set_heap
                        (<[j := set_HeartBeat (clock w (ticks w)) c0]> (heap w))
                        (set_ticks (S (ticks w)) (set_opens (S (opens w)) w)))
                 (S j)).
        -- done.
        -- simpl. by rewrite length_insert.
        -- intros i c Hi Hne. simpl.
           destruct (decide (i = j)) as [->|Hij]; [congruence|].
           by rewrite list_lookup_insert_ne.
        -- intros i c Hi Hle. simpl in Hi. apply lookup_lt_Some in Hi.
           rewrite length_insert in Hi. lia.
        -- intros Hal. by destruct (Hal f eq_refl _ _ Hk) as [c [=]].
        -- by destruct (Chan.send (conns p) (S j)).
      * intros H.
        apply (Hstep (set_opens (S (opens w)) w) (S j)); [done | done | done | |done |].
        -- intros i c Hi Hle. apply lookup_lt_Some in Hi. simpl in Hi. lia.
        -- by destruct (Chan.send (conns p) (S j)).
Qed.

(** X16: [redispool.Open] stamps the connections.  If the clock never
    reads the zero time, then after [Open] of [redispool] has returned,
    with or without an error, every connection it has allocated has a
    heartbeat that is not the zero time (the factory's own, or the time
    of its insertion); a connection that existed before with a heartbeat
    that is not the zero time is untouched; and when the factory
    allocates what it hands back, every connection that existed before
    is untouched. *)
Theorem Redis_Open_heartbeats (p p' : ConnectionPool) (w w' : World)
    (e : option error) :
  (∀ k, clock w k ≠ 0) →
  Redis.Open p w = Returns e p' w' →
  (∀ i c, heap w' !! i = Some c → (length (heap w) ≤ i)%nat → HeartBeat c ≠ 0)
  ∧ (∀ i c, heap w !! i = Some c → HeartBeat c ≠ 0 → heap w' !! i = Some c)
  ∧ ((∀ f, OpenConnection p = Some f → allocates f) →
     ∀ i, (i < length (heap w))%nat → heap w' !! i = heap w !! i).
Proof.
  intros Hclock. unfold Redis.Open. run_monad.
  destruct (Redis.open_loop _ p w) as [e0 p0 w0| |] eqn:Hloop; [|done..].
  apply Redis_open_loop_stamps in Hloop as (_ & _ & Hpre & Hnew & Hal); [|done].
  by destruct e0; intros [= <- <- <-].
Qed.

(** The factory of the [redispool] demo leaves the heartbeat zero. *)
Lemma Redis_Open_heartbeats_witness :
  (∀ i c, heap (set_ticks 3 (opened_world (1000 * Second))) !! i = Some c →
          (length (heap (world_at (1000 * Second) [])) ≤ i)%nat →
          HeartBeat c ≠ 0)
  ∧ (∀ i c, heap (world_at (1000 * Second) []) !! i = Some c → HeartBeat c ≠ 0 →
            heap (set_ticks 3 (opened_world (1000 * Second))) !! i = Some c)
  ∧ ((∀ f, OpenConnection
             (set_OpenConnection
                (Some (λ k, Some (Allocated (mkDBConn k 0 (10 * Second)))))
                scenario_pool) = Some f → allocates f) →
     ∀ i, (i < length (heap (world_at (1000 * Second) [])))%nat →
          heap (set_ticks 3 (opened_world (1000 * Second))) !! i
          = heap (world_at (1000 * Second) []) !! i).
Proof.
  apply (Redis_Open_heartbeats
           (set_OpenConnection (Some (λ k, Some (Allocated (mkDBConn k 0 (10 * Second)))))
              scenario_pool)
           (set_OpenConnection (Some (λ k, Some (Allocated (mkDBConn k 0 (10 * Second)))))
              opened_pool)
           (world_at (1000 * Second) [])
           (set_ticks 3 (opened_world (1000 * Second)))
           None).
  - intros k. vm_compute. discriminate.
  - reflexivity.
Defined.

(** ** Runs of callers *)

(** What a returning [Acquire] has done, in full. *)
Lemma Acquire_effect (pick : Pick) (p p' : ConnectionPool) (w w' : World)
    (conn : ptr) (e : option error) :
  Acquire pick p w = Returns (conn, e) p' w' →
  Chan.cap (conns p') = Chan.cap (conns p)
  ∧ Chan.closed (conns p') = Chan.closed (conns p)
  ∧ heap w' = heap w
  ∧ ((e = Some ErrTimeoutWaiting
      ∧ Chan.buf (conns p') = Chan.buf (conns p) ∧ closes w' = closes w)
     ∨ (∃ x rest c,
          Chan.buf (conns p) = x :: rest ∧ Chan.buf (conns p') = rest
          ∧ deref w x = Some c
          ∧ ((e = None ∧ conn = x ∧ closes w' = closes w)
             ∨ (e = Some ErrConnectionExpired ∧ closes w' = closes w ++ [DB c])))).
Proof.
  unfold Acquire, select_recv, isConnectionExpired, load, time_Now, DB_Close,
    Chan.recv.
  run_monad.
  destruct (Chan.buf (conns p)) as [|x rest] eqn:Hb.
  - destruct (Chan.closed (conns p)) eqn:Hcl.
    + destruct (timer_due (waitTimeout p)), pick; simpl; try done.
      intros [= <- <- <- <-]. repeat split; try done. by left.
    + intros [= <- <- <- <-]. repeat split; try done. by left.
  - destruct (timer_due (waitTimeout p)), pick; simpl.
    2: { intros [= <- <- <- <-]. repeat split; try done. by left. }
    all: destruct (deref w x) as [c|] eqn:Hc; [|done].
    all: simpl.
    all: destruct (expired_at c (clock w (ticks w))); simpl.
    all: try (change (deref (set_ticks (S (ticks w)) w) x) with (deref w x);
              rewrite Hc).
    all: intros [= <- <- <- <-]; simpl.
    all: repeat split; try done.
    all: right; exists x, rest, c; repeat split; auto.
Qed.

(** What a returning [Release] has done, in full. *)
Lemma Release_effect (conn : ptr) (p p' : ConnectionPool) (w w' : World) :
  Release conn p w = Returns tt p' w' →
  Chan.buf (conns p') = Chan.buf (conns p) ++ [conn]
  ∧ Chan.cap (conns p') = Chan.cap (conns p)
  ∧ Chan.closed (conns p') = Chan.closed (conns p)
  ∧ closes w' = closes w
  ∧ length (heap w') = length (heap w).
Proof.
  destruct (deref w conn) as [c|] eqn:Hc.
  - rewrite (Release_spec conn c); [|done]. unfold Chan.send.
    destruct (Chan.closed (conns p)) eqn:Hcl; [done|].
    destruct (Chan.len (conns p) <? Chan.cap (conns p)); [|done].
    intros [= <- <-]. unfold stamped. simpl.
    repeat split; try done. by rewrite length_insert.
  - unfold Release, time_Now, load. run_monad. simpl.
    change (deref (set_ticks (S (ticks w)) w) conn) with (deref w conn).
    by rewrite Hc.
Qed.

Lemma give_back_length (h : caller * ptr) (l : list (caller * ptr)) :
  h ∈ l → length l = S (length (give_back h l)).
Proof. intros Hin. by rewrite (give_back_perm h l Hin) at 1. Qed.

Lemma give_back_subseteq (h x : caller * ptr) (l : list (caller * ptr)) :
  x ∈ give_back h l → x ∈ l.
Proof.
  induction l as [|y l IH]; simpl; [done|].
  destruct (decide (y = h)); [by right|].
  intros [->|Hin]%elem_of_cons; [by left | right; auto].
Qed.

Lemma step_tally (cfg cfg' : Config) (call : Call) :
  owns cfg call = true →
  step cfg call = Some cfg' →
  tally cfg' = tally cfg.
Proof.
  unfold tally. intros Hown.
  destruct call as [who pick | who conn]; simpl.
  - destruct (Acquire pick (cpool cfg) (cworld cfg))
      as [[conn e] p w | |] eqn:Hacq; [|done..].
    apply Acquire_effect in Hacq
      as (_ & _ & _ & [(-> & Hb & Hcl) | (x & rest & c & Hb & Hb' & _ & Hres)]).
    + intros [= <-]. simpl. by rewrite Hb, Hcl.
    + destruct Hres as [(-> & -> & Hcl) | (-> & Hcl)]; intros [= <-]; simpl.
      all: rewrite Hb, Hb', Hcl; simpl; rewrite ?length_app; simpl; lia.
  - destruct (Release conn (cpool cfg) (cworld cfg))
      as [[] p w | |] eqn:Hrel; [|done..].
    apply Release_effect in Hrel as (Hb & _ & _ & Hcl & _).
    intros [= <-]. simpl. simpl in Hown. apply bool_decide_eq_true in Hown.
    rewrite Hb, Hcl, length_app, (give_back_length _ _ Hown). simpl. lia.
Qed.

(** The tally along a run. *)
Lemma run_tally (calls : list Call) (cfg cfg' : Config) :
  honest calls cfg = true →
  run calls cfg = Some cfg' →
  tally cfg' = tally cfg.
Proof.
  revert cfg.
  induction calls as [|call rest IH]; intros cfg Hhon; simpl.
  - by intros [= <-].
  - simpl in Hhon. apply andb_true_iff in Hhon as [Hown Hhon].
    destruct (step cfg call) as [cfg1|] eqn:Hstep; [|done].
    intros Hrun. rewrite (IH cfg1 Hhon Hrun). by eapply step_tally.
Qed.

(** X17: no entry is lost.  Along any run of [Acquire] and [Release]
    calls in which every [Release] is made by a holder of the entry, the
    number of entries idle in the store, plus the number handed out,
    plus the number of resources closed, does not change: an entry
    leaves the store only to a caller or, expired, to be closed, and
    leaves a caller only to the store. *)
Theorem honest_run_conserves (calls : list Call) (cfg cfg' : Config) :
  honest calls cfg = true →
  run calls cfg = Some cfg' →
  (length (Chan.buf (conns (cpool cfg'))) + length (held cfg')
     + length (closes (cworld cfg'))
   = length (Chan.buf (conns (cpool cfg))) + length (held cfg)
     + length (closes (cworld cfg)))%nat.
Proof.
  intros Hhon Hrun.
  pose proof (run_tally calls cfg cfg' Hhon Hrun) as Ht.
  unfold tally in Ht. lia.
Qed.

(** A run of the scenario in which the clock passes the time-out of the
    entries: one entry is handed out and given back, two are found
    expired and closed. *)
Lemma honest_run_conserves_witness :
  (length (Chan.buf (conns (set_conns (Chan.mk [1%nat] 3%Z false) opened_pool)))
     + length ([] : list (caller * ptr))
     + length ([1; 2] : list resource)
   = length (Chan.buf (conns opened_pool)) + length ([] : list (caller * ptr))
     + length ([] : list resource))%nat.
Proof.
  apply (honest_run_conserves
           [CallAcquire 1 PickReceive; CallRelease 1 1; CallAcquire 2 PickReceive;
            CallAcquire 2 PickReceive]
           (mkConfig opened_pool
              (mkWorld
                 [conn_at 0 (1000 * Second); conn_at 1 (1000 * Second);
                  conn_at 2 (1000 * Second)]
                 [] false (λ k, 1000 * Second + 6 * Second * Z.of_nat k) O 3)
              [])
           (mkConfig (set_conns (Chan.mk [1%nat] 3 false) opened_pool)
              (mkWorld
                 [conn_at 0 (1006 * Second); conn_at 1 (1000 * Second);
                  conn_at 2 (1000 * Second)]
                 [1; 2]%nat false (λ k, 1000 * Second + 6 * Second * Z.of_nat k) 4 3)
              [])).
  - reflexivity.
  - reflexivity.
Defined.

Lemma deref_is_Some_length (w w' : World) (conn : ptr) :
  length (heap w') = length (heap w) →
  is_Some (deref w conn) → is_Some (deref w' conn).
Proof.
  intros Hlen. destruct conn as [|i]; [done|]. simpl.
  rewrite !lookup_lt_is_Some. by rewrite Hlen.
Qed.

Lemma step_sound (cfg cfg' : Config) (call : Call) :
  sound cfg →
  owns cfg call = true →
  step cfg call = Some cfg' →
  sound cfg'.
Proof.
  unfold sound. intros (Hopen & Hfit & Hvalid) Hown.
  destruct call as [who pick | who conn]; simpl.
  - destruct (Acquire pick (cpool cfg) (cworld cfg))
      as [[conn e] p w | |] eqn:Hacq; [|done..].
    apply Acquire_effect in Hacq
      as (Hcap & Hcl & Hheap &
          [(-> & Hb & _) | (x & rest & c & Hb & Hb' & Hc & Hres)]).
    + intros [= <-]. simpl. rewrite Hcl, Hcap, Hb.
      split; [done|]. split; [done|].
      intros who' conn' Hin. eapply deref_is_Some_length, Hvalid; [|done].
      by rewrite Hheap.
    + rewrite Hb in Hfit. simpl in Hfit.
      destruct Hres as [(-> & -> & _) | (-> & _)]; intros [= <-]; simpl.
      all: rewrite Hcl, Hcap, Hb'.
      all: split; [done|]; split; [simpl; lia|].
      * intros who' conn' [[= -> ->]|Hin]%elem_of_cons.
        -- eapply (deref_is_Some_length (cworld cfg)); [by rewrite Hheap|].
           by rewrite Hc.
        -- eapply deref_is_Some_length, Hvalid; [|done]. by rewrite Hheap.
      * intros who' conn' Hin.
        eapply deref_is_Some_length, Hvalid; [|done]. by rewrite Hheap.
  - destruct (Release conn (cpool cfg) (cworld cfg))
      as [[] p w | |] eqn:Hrel; [|done..].
    apply Release_effect in Hrel as (Hb & Hcap & Hcl & _ & Hlen).
    intros [= <-]. simpl. simpl in Hown. apply bool_decide_eq_true in Hown.
    rewrite Hcl, Hcap, Hb, length_app.
    rewrite (give_back_length _ _ Hown) in Hfit. simpl.
    split; [done|]. split; [lia|].
    intros who' conn' Hin%give_back_subseteq.
    eapply deref_is_Some_length, Hvalid; done.
Qed.

(** X18: a [Release] by a holder neither blocks nor panics.  Start from
    a state in which the store is open, the idle entries and the
    handed-out entries together fit in its capacity and every handed-out
    entry is a valid connection (the state after [Open] is one).  After
    any run of [Acquire] and [Release] calls in which every [Release] is
    made by a holder of the entry, each entry that is handed out can be
    released at once: the [Release] returns. *)
Theorem honest_Release_returns (calls : list Call) (cfg cfg' : Config)
    (who : caller) (conn : ptr) :
  sound cfg →
  honest calls cfg = true →
  run calls cfg = Some cfg' →
  (who, conn) ∈ held cfg' →
  sound cfg'
  ∧ ∃ cfg'', step cfg' (CallRelease who conn) = Some cfg''.
Proof.
  intros Hsound Hhon Hrun Hin.
  assert (Hsound' : sound cfg').
  { revert cfg Hsound Hhon Hrun.
    induction calls as [|call rest IH]; intros cfg Hsound Hhon; simpl.
    - by intros [= <-].
    - simpl in Hhon. apply andb_true_iff in Hhon as [Hown Hhon].
      destruct (step cfg call) as [cfg1|] eqn:Hstep; [|done].
      apply IH; [|done]. by eapply step_sound. }
  split; [done|].
  destruct Hsound' as (Hopen & Hfit & Hvalid).
  destruct (Hvalid who conn Hin) as [c Hc].
  simpl. rewrite (Release_spec conn c); [|done].
  unfold Chan.send. rewrite Hopen.
  assert (Hheld : (0 < length (held cfg'))%nat).
  { destruct (held cfg'); [by apply elem_of_nil in Hin | simpl; lia]. }
  unfold Chan.len.
  destruct (Z.ltb_spec (Z.of_nat (length (Chan.buf (conns (cpool cfg')))))
              (Chan.cap (conns (cpool cfg')))); [|lia].
  by eexists.
Qed.

(** In the scenario, after callers 1 and 2 have each acquired an entry
    and caller 1 has given its entry back, caller 2 can release. *)
Lemma honest_Release_returns_witness :
  sound
    (mkConfig (set_conns (Chan.mk [3; 1]%nat 3 false) opened_pool)
       (set_ticks 3
          (set_heap
             [conn_at 0 (1005 * Second); conn_at 1 (1000 * Second);
              conn_at 2 (1000 * Second)]
             (opened_world (1005 * Second))))
       [(2, 2)]%nat)
  ∧ ∃ cfg'',
      step
        (mkConfig (set_conns (Chan.mk [3; 1]%nat 3 false) opened_pool)
           (set_ticks 3
              (set_heap
                 [conn_at 0 (1005 * Second); conn_at 1 (1000 * Second);
                  conn_at 2 (1000 * Second)]
                 (opened_world (1005 * Second))))
           [(2, 2)]%nat)
        (CallRelease 2 2)
      = Some cfg''.
Proof.
  apply (honest_Release_returns
           [CallAcquire 1 PickReceive; CallAcquire 2 PickReceive; CallRelease 1 1]
           scenario_start).
  - unfold sound. simpl. split; [done|]. split; [lia|].
    by intros ? ? ?%elem_of_nil.
  - reflexivity.
  - reflexivity.
  - by left.
Defined.

(** ** Instances of [Acquire_empty] and [Redis_Close_first] *)

(** X21: [Acquire] on the empty pool of the tests times out and changes
    nothing. *)
Lemma Acquire_empty_witness :
  Acquire PickReceive test_pool (world_at 0 [])
  = Returns (nil, Some ErrTimeoutWaiting) test_pool (world_at 0 []).
Proof.
  apply (Acquire_empty PickReceive test_pool (world_at 0 [])); reflexivity.
Defined.

(** X22: the first [Close] of [redispool] on the pool of the scenario. *)
Lemma Redis_Close_first_witness :
  Redis.Close opened_pool (opened_world (1005 * Second))
  = Returns tt
      (set_conns (Chan.mk [] (Chan.cap (conns opened_pool)) true) opened_pool)
      (set_closes
         (closes (opened_world (1005 * Second))
            ++ resources (opened_world (1005 * Second)) (Chan.buf (conns opened_pool)))
         (opened_world (1005 * Second))).
Proof.
  apply (Redis_Close_first opened_pool (opened_world (1005 * Second))).
  - reflexivity.
  - unfold valid. simpl. repeat constructor; by eexists.
Defined.

(** ** What a successful [Acquire] and a finished [Open] guarantee *)

(** X19: what the caller of a successful [Acquire] gets.  If [Acquire]
    returns a nil error, the connection it returns is not nil, was the
    head of the store and is no longer in that place, is a valid
    connection that is not expired at the reading of the clock
    [Acquire] made, and nothing has been closed or written. *)
Theorem Acquire_handout (pick : Pick) (p p' : ConnectionPool) (w w' : World)
    (conn : ptr) :
  Acquire pick p w = Returns (conn, None) p' w' →
  conn ≠ nil
  ∧ ∃ rest c,
      Chan.buf (conns p) = conn :: rest
      ∧ Chan.buf (conns p') = rest
      ∧ deref w conn = Some c
      ∧ expired_at c (clock w (ticks w)) = false
      ∧ closes w' = closes w
      ∧ heap w' = heap w.
Proof.
  intros Hacq.
  destruct (Acquire_hands_live _ _ _ _ _ _ Hacq) as (c & Hc & Hlive).
  apply Acquire_effect in Hacq
    as (_ & _ & Hheap & [([=] & _) | (x & rest & c' & Hb & Hb' & _ & Hres)]).
  destruct Hres as [(_ & -> & Hcl) | ([=] & _)].
  split; [by intros ->|].
  by exists rest, c.
Qed.

Lemma Acquire_handout_witness :
  (1 ≠ nil)%nat
  ∧ ∃ rest c,
      Chan.buf (conns opened_pool) = 1%nat :: rest
      ∧ Chan.buf (conns (set_conns (Chan.mk [2; 3]%nat 3 false) opened_pool)) = rest
      ∧ deref (opened_world (1005 * Second)) 1 = Some c
      ∧ expired_at c
          (clock (opened_world (1005 * Second))
             (ticks (opened_world (1005 * Second)))) = false
      ∧ closes (set_ticks 1 (opened_world (1005 * Second)))
        = closes (opened_world (1005 * Second))
      ∧ heap (set_ticks 1 (opened_world (1005 * Second)))
        = heap (opened_world (1005 * Second)).
Proof.
  apply (Acquire_handout PickReceive opened_pool
           (set_conns (Chan.mk [2; 3]%nat 3 false) opened_pool)
           (opened_world (1005 * Second))
           (set_ticks 1 (opened_world (1005 * Second))) 1).
  reflexivity.
Defined.

(** The loop of [Open] keeps the store open and within its capacity. *)
Lemma open_loop_store (n : nat) (p p' : ConnectionPool) (w w' : World)
    (e : option error) :
  open_loop n p w = Returns e p' w' →
  Chan.closed (conns p') = Chan.closed (conns p)
  ∧ Chan.cap (conns p') = Chan.cap (conns p)
  ∧ (Chan.len (conns p) ≤ Chan.cap (conns p) →
     Chan.len (conns p') ≤ Chan.cap (conns p')).
Proof.
  revert p w.
  induction n as [|n IH]; intros p w; simpl.
  - run_monad. by intros [= <- <- <-].
  - unfold call_OpenConnection, send_conns. run_monad.
    destruct (OpenConnection p) as [f|]; [|done]. simpl.
    destruct (f (opens w)) as [[c|conn]|]; simpl; [..|by intros [= <- <- <-]].
    all: unfold Chan.send.
    all: destruct (Chan.closed (conns p)) eqn:Hcl; [done|].
    all: destruct (Z.ltb_spec (Chan.len (conns p)) (Chan.cap (conns p))); [|done].
    all: intros (Hcl' & Hcap' & Hlen')%IH; simpl in *.
    all: split; [congruence|]; split; [done|]; intros _; apply Hlen'.
    all: unfold Chan.len in *; simpl; rewrite length_app; simpl; lia.
Qed.

(** The loop of [Open] does not touch [once]. *)
Lemma open_loop_once (n : nat) (p p' : ConnectionPool) (w w' : World)
    (e : option error) :
  open_loop n p w = Returns e p' w' → once_done w' = once_done w.
Proof.
  revert p w.
  induction n as [|n IH]; intros p w; simpl.
  - run_monad. by intros [= <- <- <-].
  - unfold call_OpenConnection, send_conns. run_monad.
    destruct (OpenConnection p) as [f|]; [|done]. simpl.
    destruct (f (opens w)) as [[c|conn]|]; simpl; [..|by intros [= <- <- <-]].
    + destruct (Chan.send (conns p) (S (length (heap w)))) as [ch| |]; [|done..].
      by intros ->%IH.
    + destruct (Chan.send (conns p) conn) as [ch| |]; [|done..].
      by intros ->%IH.
Qed.

(** With a factory that allocates what it hands back, the loop of
    [Open] puts in the store the addresses of the structs it has added
    to the heap. *)
Lemma open_loop_heap (n : nat) (p p' : ConnectionPool) (w w' : World)
    (e : option error) :
  (∀ f, OpenConnection p = Some f → allocates f) →
  open_loop n p w = Returns e p' w' →
  ∃ k, Chan.buf (conns p') = Chan.buf (conns p) ++ fresh_ptrs (heap w) k
       ∧ length (heap w') = (length (heap w) + k)%nat.
Proof.
  revert p w.
  induction n as [|n IH]; intros p w Hal; simpl.
  - run_monad. intros [= <- <- <-]. exists O. by rewrite app_nil_r, Nat.add_0_r.
  - unfold call_OpenConnection, send_conns. run_monad.
    destruct (OpenConnection p) as [f|] eqn:Hf; [|done]. simpl.
    destruct (f (opens w)) as [[c|conn]|] eqn:Hk; simpl.
    + destruct (Chan.send (conns p) (S (length (heap w)))) as [ch| |] eqn:Hs;
        [|done..].
      intros (k & Hk' & Hlen)%IH; [|by simpl; rewrite Hf]. exists (S k). simpl in *.
      unfold Chan.send in Hs.
      destruct (Chan.closed (conns p)); [done|].
      destruct (Chan.len (conns p) <? Chan.cap (conns p)); [|done].
      injection Hs as <-. simpl in Hk'.
      rewrite length_app in Hlen. simpl in Hlen.
      split; [|lia].
      rewrite Hk', <- app_assoc. unfold fresh_ptrs.
      rewrite length_app, Nat.add_1_r. reflexivity.
    + by destruct (Hal f eq_refl _ _ Hk) as [c [=]].
    + intros [= <- <- <-]. exists O. by rewrite app_nil_r, Nat.add_0_r.
Qed.

(** X20: the state after [Open].  On a pool made by [New], whatever
    factory is set, when [Open] returns (with or without an error) the
    store is open, of capacity [maxConnections] and within it; [once] is
    as it was, and the ticker runs if [Open] returned no error.  When
    the factory allocates what it hands back, the store holds valid
    connections, none of them twice, and they fit in its capacity. *)
Theorem New_Open_sound (maxC minC : Z) (wt : Duration) (fo : option Factory)
    (p0 p' : ConnectionPool) (w w' : World) (e : option error) :
  New maxC minC wt = Some p0 →
  Open (set_OpenConnection fo p0) w = Returns e p' w' →
  Chan.closed (conns p') = false
  ∧ Chan.cap (conns p') = maxC
  ∧ Chan.len (conns p') ≤ maxC
  ∧ once_done w' = once_done w
  ∧ (e = None → cleanupTicker p' = Some Running)
  ∧ ((∀ f, fo = Some f → allocates f) →
     exclusive (mkConfig p' w' [])
     ∧ sound (mkConfig p' w' [])
     ∧ valid w' (Chan.buf (conns p'))).
Proof.
  intros Hnew Hop.
  apply New_Some in Hnew as [[Hmax _] ->].
  set (p0 := {| conns := Chan.mk [] maxC false; maxConnections := maxC;
                minConnections := minC; waitTimeout := wt;
                OpenConnection := None; cleanupTicker := None |}) in *.
  assert (Hex : (∀ f, fo = Some f → allocates f) → exclusive (mkConfig p' w' [])).
  { intros Hal. by eapply (Open_exclusive (set_OpenConnection fo p0)), Hop. }
  revert Hop. unfold Open. run_monad.
  destruct (open_loop _ (set_OpenConnection fo p0) w) as [e0 p1 w1| |] eqn:Hloop;
    [|done..].
  pose proof (open_loop_once _ _ _ _ _ _ Hloop) as Ho.
  pose proof (open_loop_store _ _ _ _ _ _ Hloop) as (Hcl1 & Hcap1 & Hlen1).
  simpl in Hcl1, Hcap1, Hlen1.
  assert (Hfit : Chan.len (conns p1) ≤ maxC).
  { rewrite <- Hcap1. apply Hlen1. unfold Chan.len. simpl. lia. }
  assert (Hrest : (∀ f, fo = Some f → allocates f) →
                  sound (mkConfig p1 w1 []) ∧ valid w1 (Chan.buf (conns p1))).
  { intros Hal.
    destruct (open_loop_heap _ (set_OpenConnection fo p0) _ _ _ _ Hal Hloop)
      as (k & Hk & Hlen).
    simpl in Hk. split.
    - unfold sound. simpl. split; [done|]. split.
      + unfold Chan.len in Hfit. rewrite Hcap1. lia.
      + by intros ? ? ?%elem_of_nil.
    - rewrite Hk. unfold valid, fresh_ptrs. apply Forall_fmap, Forall_forall.
      intros i Hi%elem_of_seq. simpl. apply lookup_lt_is_Some. lia. }
  destruct e0; intros [= <- <- <-]; simpl.
  all: do 5 (split; [done|]).
  all: intros Hal; split; [by apply Hex | by apply Hrest].
Qed.

Lemma New_Open_sound_witness :
  Chan.closed (conns opened_pool) = false
  ∧ Chan.cap (conns opened_pool) = 3
  ∧ Chan.len (conns opened_pool) ≤ 3
  ∧ once_done (opened_world 0) = once_done (world_at 0 [])
  ∧ ((None : option error) = None → cleanupTicker opened_pool = Some Running)
  ∧ ((∀ f, Some fresh_conn = Some f → allocates f) →
     exclusive (mkConfig opened_pool (opened_world 0) [])
     ∧ sound (mkConfig opened_pool (opened_world 0) [])
     ∧ valid (opened_world 0) (Chan.buf (conns opened_pool))).
Proof.
  apply (New_Open_sound 3 1 (5 * Second) (Some fresh_conn)
           {| conns := Chan.mk [] 3 false;
              maxConnections := 3; minConnections := 1;
              waitTimeout := 5 * Second;
              OpenConnection := None; cleanupTicker := None |}
           opened_pool (world_at 0 []) (opened_world 0) None).
  - reflexivity.
  - reflexivity.
Defined.

(** The factories of the examples allocate what they hand back. *)
Lemma fresh_conn_allocates : allocates fresh_conn.
Proof. intros k o [= <-]. by eexists. Qed.

(** What [Open] does with a factory that does not allocate: it sends
    whatever it gets.  A factory that hands back the same connection at
    every call leaves that connection three times in the store. *)
Example Open_same_connection :
  Open (set_OpenConnection (Some (λ _, Some (Existing 1))) scenario_pool)
    (world_at 0 [conn_at 0 (1000 * Second)])
  = Returns None
      (set_OpenConnection (Some (λ _, Some (Existing 1)))
         (set_conns (Chan.mk [1; 1; 1]%nat 3 false) opened_pool))
      (set_opens 3 (world_at 0 [conn_at 0 (1000 * Second)])).
Proof. reflexivity. Qed.

(** A factory that hands back [nil] with a nil error fills the store
    with [nil], and the first [Acquire] dereferences it. *)
Example Open_nil_connection :
  Open (set_OpenConnection (Some (λ _, Some (Existing nil))) scenario_pool)
    (world_at 0 [])
  = Returns None
      (set_OpenConnection (Some (λ _, Some (Existing nil)))
         (set_conns (Chan.mk [nil; nil; nil] 3 false) opened_pool))
      (set_opens 3 (world_at 0 []))
  ∧ Acquire PickReceive
      (set_OpenConnection (Some (λ _, Some (Existing nil)))
         (set_conns (Chan.mk [nil; nil; nil] 3 false) opened_pool))
      (set_opens 3 (world_at 0 []))
    = Panics NilDereference
        (set_OpenConnection (Some (λ _, Some (Existing nil)))
           (set_conns (Chan.mk [nil; nil] 3 false) opened_pool))
        (set_opens 3 (world_at 0 [])).
Proof. split; reflexivity. Qed.

(** ** When a tick returns *)

(** An eviction loop that ends has found every entry expired, and has
    neither allocated nor called the factory. *)
Lemma evict_Returns_all_expired (timeout : Duration) (pick : Pick) (nc : Chan.t)
    (pending : list ptr) (p p' : ConnectionPool) (w w' : World) :
  Chan.cap nc ≤ Chan.len nc →
  timer_due timeout = false →
  evict timeout pick nc pending p w = Returns tt p' w' →
  all_expired w (ticks w) pending ∧ heap w' = heap w ∧ opens w' = opens w.
Proof.
  intros Hfull Hdue. revert p w.
  induction pending as [|conn rest IH]; intros p w; simpl.
  - unfold swap_conns. run_monad. rewrite Hdue.
    destruct (Chan.closed (conns p)); [done|]. by intros [= <- <-].
  - rewrite Hdue.
    unfold pop_conns, classify, load, time_Now, DB_Close. run_monad. simpl.
    destruct (deref w conn) as [c|] eqn:Hc; [|done].
    destruct (expired_at c (clock w (ticks w))) eqn:He; simpl.
    + intros (Hall & Hh & Ho)%IH. simpl in *.
      split; [|done]. split; [by exists c|]. by eapply all_expired_ext, Hall.
    + by destruct (send_full nc conn Hfull) as [-> | ->].
Qed.

(** The refill when every call of the factory fails. *)
Lemma refill_all_fail (f : Factory) (n : nat) (p : ConnectionPool) (w : World) :
  OpenConnection p = Some f →
  created f (opens w) n = [] →
  refill n p w = Returns tt p (set_opens (opens w + n) w).
Proof.
  intros Hf. revert w.
  induction n as [|n IH]; intros w; simpl.
  - intros _. run_monad. rewrite Nat.add_0_r. by destruct w.
  - unfold call_OpenConnection. run_monad. rewrite Hf. simpl.
    destruct (f (opens w)); [done|]. simpl. intros Hnone.
    rewrite IH; [|done]. simpl. by rewrite Nat.add_succ_r.
Qed.

(** On a store without room, a refill that returns has seen every call
    of the factory fail. *)
Lemma refill_Returns_all_fail (f : Factory) (n : nat) (p p' : ConnectionPool)
    (w w' : World) :
  OpenConnection p = Some f →
  Chan.cap (conns p) ≤ Chan.len (conns p) →
  refill n p w = Returns tt p' w' →
  created f (opens w) n = [].
Proof.
  intros Hf Hfull. revert w.
  induction n as [|n IH]; intros w; simpl; [done|].
  unfold call_OpenConnection, send_conns. run_monad. rewrite Hf. simpl.
  destruct (f (opens w)) as [[c|conn]|]; simpl.
  - by destruct (send_full (conns p) (S (length (heap w))) Hfull) as [-> | ->].
  - by destruct (send_full (conns p) conn Hfull) as [-> | ->].
  - intros H. by apply IH in H.
Qed.

(** X15: when a maintenance tick completes.  On an open store, with a
    factory set, [Cleaner] returns if and only if every idle entry is
    expired (at the reading of the clock made for it) and every call of
    the factory that the refill makes, one for each of [minConnections],
    fails.  In every other case the tick blocks or panics. *)
Theorem Cleaner_returns_iff (pick : Pick) (f : Factory) (p : ConnectionPool)
    (w : World) :
  OpenConnection p = Some f →
  Chan.closed (conns p) = false →
  (∃ p' w', Cleaner pick p w = Returns tt p' w')
  ↔ all_expired w (ticks w) (Chan.buf (conns p))
    ∧ created f (opens w) (Z.to_nat (minConnections p)) = [].
Proof.
  intros Hf Hopen. split.
  - intros (p' & w' & H). revert H.
    unfold Cleaner, CloseExpiredConnections, MaintainMinConnections. run_monad.
    destruct (evict _ pick Chan.make_unbuffered (Chan.buf (conns p)) p w)
      as [[] p1 w1| |] eqn:Hev; [|done..].
    intros Hre.
    assert (Hp1 := Hev). apply evict_Returns in Hp1; [|by vm_compute]. subst p1.
    destruct (Chan.buf (conns p)) as [|conn rest] eqn:Hb.
    + simpl in Hev. unfold swap_conns in Hev. run_monad. rewrite Hopen in Hev.
      injection Hev as <-. split; [done|].
      apply (refill_Returns_all_fail f) in Hre; [|done|by vm_compute].
      simpl in Hre. change (Chan.len Chan.make_unbuffered) with 0 in Hre.
      by rewrite Z.sub_0_r in Hre.
    + apply evict_Returns_all_expired in Hev as (Hall & _ & Ho);
        [|by vm_compute|apply timePerConn_pos; by rewrite Hb].
      split; [done|].
      apply (refill_Returns_all_fail f) in Hre; [|done|by vm_compute].
      simpl in Hre. change (Chan.len Chan.make_unbuffered) with 0 in Hre.
      by rewrite Z.sub_0_r, Ho in Hre.
  - intros [Hall Hnone]. unfold Cleaner. run_monad.
    rewrite CloseExpiredConnections_all_expired; [|done..].
    unfold MaintainMinConnections. run_monad. simpl.
    change (Chan.len Chan.make_unbuffered) with 0. rewrite Z.sub_0_r.
    rewrite (refill_all_fail f); [by eexists _, _|done|done].
Qed.

(** The tick after [Open(max=3, min=1)] with every entry expired:
    with a factory that fails it returns; with one that succeeds it does
    not ([Cleaner_blocks_on_first_success]). *)
Lemma Cleaner_returns_iff_witness :
  (∃ p' w',
     Cleaner PickReceive (set_OpenConnection (Some (λ _, None)) opened_pool)
       (opened_world (1011 * Second)) = Returns tt p' w')
  ↔ all_expired (opened_world (1011 * Second))
      (ticks (opened_world (1011 * Second)))
      (Chan.buf (conns (set_OpenConnection (Some (λ _, None)) opened_pool)))
    ∧ created (λ _, None) (opens (opened_world (1011 * Second)))
        (Z.to_nat (minConnections (set_OpenConnection (Some (λ _, None)) opened_pool)))
      = [].
Proof.
  apply (Cleaner_returns_iff PickReceive (λ _, None)
           (set_OpenConnection (Some (λ _, None)) opened_pool)
           (opened_world (1011 * Second))).
  - reflexivity.
  - reflexivity.
Defined.

(** ** A whole session *)

(** [Acquire] and [Release] touch neither the ticker nor [once]. *)
Lemma Acquire_frame (pick : Pick) (p p' : ConnectionPool) (w w' : World)
    (r : ptr * option error) :
  Acquire pick p w = Returns r p' w' →
  cleanupTicker p' = cleanupTicker p ∧ once_done w' = once_done w.
Proof.
  unfold Acquire, select_recv, isConnectionExpired, load, time_Now, DB_Close.
  run_monad.
  destruct (Chan.recv (conns p)) as [x ok ch|]; [|by intros [= <- <- <-]].
  destruct (timer_due (waitTimeout p)), pick; simpl.
  2: by intros [= <- <- <-].
  all: destruct (deref w x) as [c|] eqn:Hc; [|done].
  all: simpl.
  all: destruct (expired_at c (clock w (ticks w))); simpl.
  all: try (change (deref (set_ticks (S (ticks w)) w) x) with (deref w x);
            rewrite Hc).
  all: by intros [= <- <- <-].
Qed.

Lemma Release_frame (conn : ptr) (p p' : ConnectionPool) (w w' : World) :
  Release conn p w = Returns tt p' w' →
  cleanupTicker p' = cleanupTicker p ∧ once_done w' = once_done w.
Proof.
  destruct (deref w conn) as [c|] eqn:Hc.
  - rewrite (Release_spec conn c); [|done].
    destruct (Chan.send (conns p) conn); [|done..]. by intros [= <- <-].
  - unfold Release, time_Now, load. run_monad. simpl.
    change (deref (set_ticks (S (ticks w)) w) conn) with (deref w conn).
    by rewrite Hc.
Qed.

(** What [Close] needs, beside [sound], to do all of its work. *)
Lemma step_ready (cfg cfg' : Config) (call : Call) :
  sound cfg →
  valid (cworld cfg) (Chan.buf (conns (cpool cfg))) →
  owns cfg call = true →
  step cfg call = Some cfg' →
  valid (cworld cfg') (Chan.buf (conns (cpool cfg')))
  ∧ cleanupTicker (cpool cfg') = cleanupTicker (cpool cfg)
  ∧ once_done (cworld cfg') = once_done (cworld cfg).
Proof.
  intros (_ & _ & Hheld) Hv Hown.
  destruct call as [who pick | who conn]; simpl.
  - destruct (Acquire pick (cpool cfg) (cworld cfg))
      as [[conn e] p w | |] eqn:Hacq; [|done..].
    destruct (Acquire_frame _ _ _ _ _ _ Hacq) as [Ht Ho].
    apply Acquire_effect in Hacq
      as (_ & _ & Hheap & [(-> & Hb & _) | (x & rest & c & Hb & Hb' & _ & Hres)]).
    + intros [= <-]. simpl. rewrite Hb. split; [|done].
      by eapply valid_ext, Hv.
    + assert (Hv' : valid w rest).
      { eapply valid_ext; [done|]. rewrite Hb in Hv.
        by apply Forall_cons in Hv as [_ ?]. }
      destruct Hres as [(-> & -> & _) | (-> & _)]; intros [= <-]; simpl.
      all: by rewrite Hb'.
  - destruct (Release conn (cpool cfg) (cworld cfg))
      as [[] p w | |] eqn:Hrel; [|done..].
    destruct (Release_frame _ _ _ _ _ Hrel) as [Ht Ho].
    apply Release_effect in Hrel as (Hb & _ & _ & _ & Hlen).
    intros [= <-]. simpl. rewrite Hb. split; [|done].
    simpl in Hown. apply bool_decide_eq_true in Hown.
    apply Forall_app. split.
    + eapply Forall_impl; [exact Hv|]. intros y Hy.
      by eapply deref_is_Some_length, Hy.
    + apply Forall_singleton.
      eapply deref_is_Some_length, Hheld; done.
Qed.

(** X23: a session closes every entry.  Start from a pool with a ticker
    whose store is open and holds valid entries, in a process where no
    pool has been closed yet, with the idle and the handed-out entries
    fitting in the capacity of the store.  After any run of [Acquire] and
    [Release] calls in which every [Release] is made by a holder of the
    entry and at whose end no entry is handed out, [Close] returns, and
    the resources closed by then are as many as the entries that were
    idle, handed out or closed at the start: each entry has been closed,
    by an [Acquire] that found it expired or by [Close]. *)
Theorem session_closes_everything (calls : list Call) (cfg cfg' : Config) :
  sound cfg →
  valid (cworld cfg) (Chan.buf (conns (cpool cfg))) →
  is_Some (cleanupTicker (cpool cfg)) →
  once_done (cworld cfg) = false →
  honest calls cfg = true →
  run calls cfg = Some cfg' →
  held cfg' = [] →
  ∃ p'' w'',
    Close (cpool cfg') (cworld cfg') = Returns tt p'' w''
    ∧ Chan.buf (conns p'') = []
    ∧ length (closes w'') = tally cfg.
Proof.
  intros Hsound Hv Ht Ho Hhon Hrun Hheld.
  rewrite <- (run_tally calls cfg cfg' Hhon Hrun).
  assert (Hinv : sound cfg'
                 ∧ valid (cworld cfg') (Chan.buf (conns (cpool cfg')))
                 ∧ is_Some (cleanupTicker (cpool cfg'))
                 ∧ once_done (cworld cfg') = false).
  { clear Hheld. revert cfg Hsound Hv Ht Ho Hhon Hrun.
    induction calls as [|call rest IH]; intros cfg Hsound Hv Ht Ho Hhon; simpl.
    - by intros [= <-].
    - simpl in Hhon. apply andb_true_iff in Hhon as [Hown Hhon].
      destruct (step cfg call) as [cfg1|] eqn:Hstep; [|done].
      destruct (step_ready _ _ _ Hsound Hv Hown Hstep) as (Hv1 & Ht1 & Ho1).
      apply IH; [by eapply step_sound | done | by rewrite Ht1 | by rewrite Ho1
                | done]. }
  destruct Hinv as ((Hopen & _ & _) & Hv' & Ht' & Ho').
  rewrite Close_first; [|done..].
  eexists _, _. split; [reflexivity|]. split; [done|].
  simpl. rewrite length_app. unfold tally. rewrite Hheld. simpl.
  assert (Hres : ∀ l, valid (cworld cfg') l →
                 length (resources (cworld cfg') l) = length l).
  { induction l as [|y l IHl]; [done|].
    intros [[c Hc] Hl]%Forall_cons. simpl. rewrite Hc. simpl.
    by rewrite IHl. }
  rewrite Hres by done. lia.
Qed.

(** The scenario: two callers acquire and release, then the pool is
    closed; three entries at the start, three resources closed. *)
Lemma session_closes_everything_witness :
  ∃ p'' w'',
    Close (set_conns (Chan.mk [3; 1; 2]%nat 3 false) opened_pool)
      (set_ticks 4
         (set_heap
            [conn_at 0 (1005 * Second); conn_at 1 (1005 * Second);
             conn_at 2 (1000 * Second)]
            (opened_world (1005 * Second))))
    = Returns tt p'' w''
    ∧ Chan.buf (conns p'') = []
    ∧ length (closes w'') = tally scenario_start.
Proof.
  apply (session_closes_everything
           [CallAcquire 1 PickReceive; CallAcquire 2 PickReceive;
            CallRelease 1 1; CallRelease 2 2]
           scenario_start
           (mkConfig (set_conns (Chan.mk [3; 1; 2]%nat 3 false) opened_pool)
              (set_ticks 4
                 (set_heap
                    [conn_at 0 (1005 * Second); conn_at 1 (1005 * Second);
                     conn_at 2 (1000 * Second)]
                    (opened_world (1005 * Second))))
              [])).
  - unfold sound. simpl. split; [done|]. split; [lia|].
    by intros ? ? ?%elem_of_nil.
  - unfold valid. simpl. repeat constructor; by eexists.
  - by eexists.
  - reflexivity.
  - reflexivity.
  - reflexivity.
  - reflexivity.
Defined.
